(** * Pairwise-comparison ranking pipeline ([rank.py])

    A shallow embedding of the ranking pipeline of [rank.py]:

    - [load_results]        : validation of the comparison rows,
    - [build_win_matrix]    : aggregation into a win matrix and records,
    - [bradley_terry]       : the MM fitter of the Bradley-Terry model,
    - [rank_scores]         : the ranker,
    - [powerlaw_allocations]: the power-law allocator.

    Python dictionaries are stdpp [gmap]s keyed by [string]; Python [int]s
    are [Z]; a Python exception is a value of [exn] carried by the error
    monad [result].  The fitter and the allocator are written once, over an
    interface [Arith] of the arithmetic they use on Python [float]s.  Two
    instances are given: [Binary64.arith], the arithmetic of the code itself
    (IEEE 754 binary64, through Rocq's primitive floats), and [Q_Arith],
    exact rational arithmetic, which agrees with the code wherever no
    operation rounds or overflows and is used for examples only. *)

From Stdlib Require Import ZArith QArith Qround Qabs Lqa Lia String Ascii List Bool.
From Stdlib Require Import Sorting.Sorted Sorting.Permutation.
From Stdlib Require OrdersEx.
From Stdlib Require PrimFloat FloatOps SpecFloat Uint63.
From stdpp Require Import base option gmap strings list sorting.

Local Open Scope string_scope.
Local Open Scope Z_scope.

(** ** Exceptions and the error monad *)

(** The exceptions the pipeline can raise.  The three [ValueError]s of
    [load_results] are told apart by their message. *)
Inductive arith_exn : Type :=
| ZeroDivisionError    (* float division by zero *)
| OverflowError        (* int too large for a float; result out of range *)
| NotANumber.          (* ValueError: cannot convert float NaN to integer *)

Inductive exn : Type :=
| UnrecognizedWinner   (* ValueError "Unrecognized winner fields in row" *)
| WinnerNotInPair      (* ValueError "Winner ... not in pair ..." *)
| NoComparisonData     (* ValueError "No comparison data found." *)
| FailedToNormalize    (* RuntimeError "Failed to normalize Bradley-Terry scores." *)
| KeyError
| IndexError
| AttributeError       (* 'NoneType' object has no attribute 'strip' *)
| EmptySequence        (* ValueError: max() of an empty sequence *)
| ArithError (e : arith_exn).

Inductive result (A : Type) : Type :=
| Ok (a : A)
| Raise (e : exn).
Arguments Ok {A} a.
Arguments Raise {A} e.

#[export] Instance result_ret : MRet result := fun A a => Ok a.
#[export] Instance result_bind : MBind result := fun A B k r =>
  match r with
  | Ok a => k a
  | Raise e => Raise e
  end.

(** [for x in xs: acc = body acc x], stopping at the first exception. *)
Fixpoint for_each {A S} (xs : list A) (body : S -> A -> result S) (acc : S)
  : result S :=
  match xs with
  | [] => Ok acc
  | x :: xs' => acc' ← body acc x; for_each xs' body acc'
  end.

(** The spec's error taxonomy, as a view on [exn]. *)
Definition MalformedRecord (e : exn) : Prop :=
  e = UnrecognizedWinner \/ e = WinnerNotInPair.
Definition EmptyInput (e : exn) : Prop := e = NoComparisonData.
Definition DegenerateModel (e : exn) : Prop := e = FailedToNormalize.

(** ** Strings *)

(** Characters removed by [str.strip()]: the code points below 256 for which
    [str.isspace] holds. *)
Definition is_space (c : ascii) : bool :=
  let n := N_of_ascii c in
  ((9 <=? n) && (n <=? 13) || (28 <=? n) && (n <=? 32)
   || (n =? 133) || (n =? 160))%N.

Fixpoint lstrip (s : string) : string :=
  match s with
  | String c s' => if is_space c then lstrip s' else s
  | EmptyString => EmptyString
  end.

Fixpoint rstrip (s : string) : string :=
  match s with
  | String c s' =>
      match rstrip s' with
      | EmptyString => if is_space c then EmptyString else String c EmptyString
      | t => String c t
      end
  | EmptyString => EmptyString
  end.

Definition strip (s : string) : string := rstrip (lstrip s).

(** ** Outcome ingestion: [load_results] *)

(** A row of [csv.DictReader] all of whose cells are texts.  The columns
    [project_a] and [project_b] are read with [row[...]]; [winner] and
    [winner_name] with [row.get(..., "")], [None] standing for a column that
    the file lacks.  The rows of a file with short lines, which have [None]
    cells, are the rows of [DictReader], below. *)
Record Row : Type := {
  project_a : string;
  project_b : string;
  winner : option string;
  winner_name : option string;
}.

Definition Outcome : Type := string * string * string.

Definition get_field (field : option string) : string := default "" field.

(** Body of the [for row in reader] loop up to [rows.append]. *)
Definition load_row (row : Row) : result Outcome :=
  let a := strip (project_a row) in
  let b := strip (project_b row) in
  let winner_key := strip (get_field (winner row)) in
  let winner_name := strip (get_field (winner_name row)) in
  w ← (if negb (String.eqb winner_name "") then Ok winner_name
        else if String.eqb winner_key "project_a" then Ok a
        else if String.eqb winner_key "project_b" then Ok b
        else Raise UnrecognizedWinner);
  if negb (String.eqb w a || String.eqb w b) then Raise WinnerNotInPair
  else Ok (a, b, w).

Definition load_results (reader : list Row) : result (list Outcome) :=
  rows ← for_each reader
           (fun rows row => o ← load_row row; Ok (rows ++ [o])%list) [];
  match rows with
  | [] => Raise NoComparisonData
  | _ => Ok rows
  end.

(** ** Vocabulary of the ingestion contract *)

(** The fields of a row as the loop body sees them, stripped. *)
Definition name_a (row : Row) : string := strip (project_a row).
Definition name_b (row : Row) : string := strip (project_b row).
Definition side_key (row : Row) : string := strip (get_field (winner row)).
Definition explicit_name (row : Row) : string :=
  strip (get_field (winner_name row)).

(** The winner indicator is missing or unrecognised: no explicit winner
    name, and a side key that is neither selector. *)
Definition indicator_unrecognized (row : Row) : Prop :=
  explicit_name row = "" /\ side_key row <> "project_a"
  /\ side_key row <> "project_b".

(** The entity a recognised indicator resolves to. *)
Definition resolved_winner (row : Row) : string :=
  if String.eqb (explicit_name row) "" then
    if String.eqb (side_key row) "project_a" then name_a row else name_b row
  else explicit_name row.

Definition winner_outside_pair (row : Row) : Prop :=
  ~ indicator_unrecognized row
  /\ resolved_winner row <> name_a row /\ resolved_winner row <> name_b row.

Definition malformed (row : Row) : Prop :=
  indicator_unrecognized row \/ winner_outside_pair row.

Definition outcome_of (row : Row) : Outcome :=
  (name_a row, name_b row, resolved_winner row).

(** The [for row in reader] loop, started with [rows] already appended. *)
Definition read_rows (reader : list Row) (rows : list Outcome)
  : result (list Outcome) :=
  for_each reader
    (fun rows row => o ← load_row row; Ok (rows ++ [o])%list) rows.


(** ** Win matrix builder: [build_win_matrix] *)

(** [defaultdict(lambda: defaultdict(int))] and
    [defaultdict(lambda: (0, 0))]: a lookup of a missing key yields the
    default and, as [__getitem__] does, stores it. *)
Definition touch {V} (dflt : V) (k : string) (m : gmap string V)
  : gmap string V :=
  match m !! k with
  | Some _ => m
  | None => <[k := dflt]> m
  end.

Definition getd {V} (dflt : V) (k : string) (m : gmap string V) : V :=
  default dflt (m !! k).

(** [wins[x][y] += 1] *)
Definition incr_win (x y : string) (wins : gmap string (gmap string Z))
  : gmap string (gmap string Z) :=
  let row := getd ∅ x wins in
  <[x := <[y := getd 0 y row + 1]> row]> wins.

(** [w, t = records[x]; records[x] = (w + dw, t + 1)] *)
Definition bump (x : string) (dw : Z) (records : gmap string (Z * Z))
  : gmap string (Z * Z) :=
  let '(w, t) := getd (0, 0) x records in
  <[x := (w + dw, t + 1)]> records.

Definition build_step
    (st : gmap string (gmap string Z) * gmap string (Z * Z)) (o : Outcome)
  : gmap string (gmap string Z) * gmap string (Z * Z) :=
  let '(wins, records) := st in
  let '(a, b, winner) := o in
  let '(wins, records) :=
    if String.eqb winner a
    then (incr_win a b wins, bump b 0 (bump a 1 records))
    else (incr_win b a wins, bump a 0 (bump b 1 records)) in
  (touch ∅ b (touch ∅ a wins), touch (0, 0) b (touch (0, 0) a records)).

Definition build_win_matrix (results : list Outcome)
  : gmap string (gmap string Z) * gmap string (Z * Z) :=
  fold_left build_step results (∅, ∅).

(** ** The arithmetic of Python [float]s, as an interface *)

(** The operations [rank.py] applies to [float]s.  [of_int] is the
    conversion an [int] operand undergoes next to a [float] one; [fdiv] is
    [/], which raises on a zero divisor; [fsum] is the builtin [sum] over
    floats (started from the int 0); [fround] is [int(round(x))]. *)
Class Arith (F : Type) : Type := {
  of_int : Z -> arith_exn + F;
  fadd : F -> F -> F;
  fsub : F -> F -> F;
  fmul : F -> F -> F;
  fdiv : F -> F -> arith_exn + F;
  fneg : F -> F;
  fabs : F -> F;
  feqb : F -> F -> bool;
  fltb : F -> F -> bool;
  fleb : F -> F -> bool;
  fsum : list F -> F;
  fround : F -> arith_exn + Z;
  f0 : F;             (* 0.0 *)
  f1 : F;             (* 1.0 *)
  f1e_12 : F;         (* 1e-12 *)
}.

(** [int ** float], which goes through the C library's [pow]. *)
Class Pow (F : Type) : Type := fpow : Z -> F -> arith_exn + F.

Definition lift {A} (r : arith_exn + A) : result A :=
  match r with
  | inr a => Ok a
  | inl e => Raise (ArithError e)
  end.

(** [d[k]] on a plain [dict] *)
Definition get {V} (k : string) (m : gmap string V) : result V :=
  match m !! k with
  | Some v => Ok v
  | None => Raise KeyError
  end.

(** [sum(row.values())] on a row of the win matrix *)
Definition sum_values (row : gmap string Z) : Z :=
  map_fold (fun _ v acc => acc + v) 0 row.

(** [sorted(...)]: a stable sort that, like Python's, only asks [<]. *)
Section Sorted.
Context {A : Type} (lt : A -> A -> bool).

Fixpoint insert_sorted (x : A) (l : list A) : list A :=
  match l with
  | [] => [x]
  | y :: l' => if lt y x then y :: insert_sorted x l' else x :: y :: l'
  end.

Definition sorted (l : list A) : list A := foldr insert_sorted [] l.
End Sorted.

(** [sorted(wins.keys())] *)
Definition sorted_keys {V} (m : gmap string V) : list string :=
  sorted String.ltb (elements (dom m)).

(** ** Bradley-Terry fitter: [bradley_terry] *)

Section Fitter.
Context {F : Type} `{Arith F}.

(** [max(...)] over a generator: the first greatest element. *)
Definition py_max (xs : list F) : result F :=
  match xs with
  | [] => Raise EmptySequence
  | x :: xs' => Ok (fold_left (fun m y => if fltb m y then y else m) xs' x)
  end.

(** The inner loop [for j in players], accumulating [denom]. *)
Definition denom_step (wins : gmap string (gmap string Z))
    (scores : gmap string F) (i : string) (denom : F) (j : string)
  : result F :=
  if String.eqb i j then Ok denom
  else
    wi ← get i wins;
    wj ← get j wins;
    let n_ij := getd 0 j wi + getd 0 i wj in
    if n_ij =? 0 then Ok denom
    else
      si ← get i scores;
      sj ← get j scores;
      n ← lift (of_int n_ij);
      q ← lift (fdiv n (fadd si sj));
      Ok (fadd denom q).

(** The body of [for i in players]: the new score of [i]. *)
Definition new_score (wins : gmap string (gmap string Z))
    (players : list string) (scores : gmap string F) (i : string)
  : result F :=
  wi ← get i wins;
  let wins_i := sum_values wi in
  if wins_i =? 0 then Ok f1e_12
  else
    denom ← for_each players (denom_step wins scores i) f0;
    if fltb f0 denom then
      w ← lift (of_int wins_i);
      lift (fdiv w denom)
    else Ok f1e_12.

(** The dict [new_scores] before normalisation. *)
Definition mm_update (wins : gmap string (gmap string Z))
    (players : list string) (scores : gmap string F)
  : result (gmap string F) :=
  for_each players
    (fun new_scores i =>
       v ← new_score wins players scores i; Ok (<[i := v]> new_scores))
    ∅.

(** The values of a dict whose keys were inserted in the order [keys]. *)
Definition values (keys : list string) (m : gmap string F)
  : result (list F) :=
  for_each keys (fun vs k => v ← get k m; Ok (vs ++ [v])%list) [].

(** [for k in new_scores: new_scores[k] /= total] *)
Definition normalize (keys : list string) (total : F)
    (new_scores : gmap string F) : result (gmap string F) :=
  for_each keys
    (fun m k => v ← get k m; q ← lift (fdiv v total); Ok (<[k := q]> m))
    new_scores.

(** [max(abs(new_scores[k] - scores[k]) for k in players)] *)
Definition max_delta (players : list string) (new_scores scores : gmap string F)
  : result F :=
  ds ← for_each players
         (fun ds k =>
            x ← get k new_scores; y ← get k scores;
            Ok (ds ++ [fabs (fsub x y)])%list) [];
  py_max ds.

(** One pass of the body of [for _ in range(max_iters)]: the normalised
    [new_scores] and [delta]. *)
Definition bt_round (wins : gmap string (gmap string Z))
    (players : list string) (scores : gmap string F)
  : result (gmap string F * F) :=
  new_scores ← mm_update wins players scores;
  vs ← values players new_scores;
  let total := fsum vs in
  if fleb total f0 then Raise FailedToNormalize
  else
    new_scores ← normalize players total new_scores;
    delta ← max_delta players new_scores scores;
    Ok (new_scores, delta).

(** [for _ in range(n)], with its [break]. *)
Fixpoint bt_loop (wins : gmap string (gmap string Z))
    (players : list string) (tol : F) (n : nat) (scores : gmap string F)
  : result (gmap string F) :=
  match n with
  | O => Ok scores
  | S n' =>
      '(new_scores, delta) ← bt_round wins players scores;
      if fltb delta tol then Ok new_scores
      else bt_loop wins players tol n' new_scores
  end.

(** [{player: 1.0 for player in players}] *)
Definition init_scores (players : list string) : gmap string F :=
  fold_left (fun m p => <[p := f1]> m) players ∅.

Definition bradley_terry (wins : gmap string (gmap string Z))
    (max_iters : Z) (tol : F) : result (gmap string F) :=
  let players := sorted_keys wins in
  bt_loop wins players tol (Z.to_nat max_iters) (init_scores players).
End Fitter.

(** ** Ranker: [rank_scores] *)

Section Ranker.
Context {F : Type} `{Arith F}.

(** [<] on the sort keys [(-kv[1], kv[0])]: tuples are compared at the
    first component at which they differ. *)
Definition key_lt (x y : string * F) : bool :=
  if feqb (fneg (snd x)) (fneg (snd y)) then String.ltb (fst x) (fst y)
  else fltb (fneg (snd x)) (fneg (snd y)).

(** [items] is [scores.items()], the entries of the dict in its order. *)
Definition rank_scores (items : list (string * F)) : list (string * F) :=
  sorted key_lt items.
End Ranker.

(** ** Power-law allocator: [powerlaw_allocations] *)

(** Slices [l[:n]] and [l[n:]] for an [int] bound, negative bounds counting
    from the end. *)
Definition slice_bound {A} (n : Z) (l : list A) : nat :=
  if n <? 0 then Z.to_nat (Z.of_nat (length l) + n) else Z.to_nat n.
Definition slice_to {A} (n : Z) (l : list A) : list A :=
  take (slice_bound n l) l.
Definition slice_from {A} (n : Z) (l : list A) : list A :=
  drop (slice_bound n l) l.

Section Allocator.
Context {F : Type} `{Arith F} `{Pow F}.

(** [[1 / (idx**alpha) for idx in range(1, n + 1)]] *)
Definition weight (alpha : F) (idx : Z) : result F :=
  p ← lift (fpow idx alpha);
  one ← lift (of_int 1);
  lift (fdiv one p).

Definition weights (alpha : F) (n : nat) : result (list F) :=
  for_each (seq 1 n)
    (fun ws idx => w ← weight alpha (Z.of_nat idx); Ok (ws ++ [w])%list) [].

(** The clamp of one rounded allocation. *)
Definition clamp (max_fil min_fil alloc : Z) : Z :=
  if alloc <? min_fil then 0 else Z.min max_fil alloc.

(** The body of the [enumerate(consider, start=1)] loop; [weights[idx - 1]]
    is read with the index [idx - 1] of a Python list. *)
Definition alloc_step (ws : list F) (scale : F) (max_fil min_fil : Z)
    (allocations : gmap string Z) (entry : nat * (string * F))
  : result (gmap string Z) :=
  let '(idx, (name, _score)) := entry in
  w ← match ws !! (idx - 1)%nat with
      | Some w => Ok w
      | None => Raise IndexError
      end;
  let raw := fmul scale w in
  alloc ← lift (fround raw);
  Ok (<[name := clamp max_fil min_fil alloc]> allocations).

Definition powerlaw_allocations (ranked : list (string * F)) (alpha : F)
    (top_n max_fil min_fil budget_fil : Z) : result (gmap string Z) :=
  let consider := slice_to top_n ranked in
  ws ← weights alpha (length consider);
  let s := fsum ws in
  let weight_sum := if feqb s f0 then f1 else s in
  b ← lift (of_int budget_fil);
  scale ← lift (fdiv b weight_sum);
  allocations ←
    for_each (zip (seq 1 (length consider)) consider)
      (alloc_step ws scale max_fil min_fil) ∅;
  Ok (fold_left (fun m entry => <[fst entry := 0]> m)
        (slice_from top_n ranked) allocations).
End Allocator.

(** ** Exact arithmetic *)

(** The reading of the interface in which a [float] is a rational number and
    every operation is exact: no rounding, no overflow, no NaN.  It is not
    the arithmetic of [rank.py] (that is [Binary64.arith], below) and no
    general statement about the code rests on it: it serves the ranker, which
    only compares scores, and examples on which the binary64 operations are
    exact or far from any rounding.  Results are kept in lowest terms
    ([Qred]), which changes no value; equality of scores is [Qeq]. *)
Definition Qltb (x y : Q) : bool := negb (Qle_bool y x).

(** [round] to the nearest integer, halves to the even neighbour. *)
Definition Qround_half_even (x : Q) : Z :=
  let f := Qfloor x in
  match (x - inject_Z f ?= 1 # 2)%Q with
  | Lt => f
  | Gt => f + 1
  | Eq => if Z.even f then f else f + 1
  end.

#[export] Instance Q_Arith : Arith Q := {|
  of_int z := inr (inject_Z z);
  fadd x y := Qred (x + y);
  fsub x y := Qred (x - y);
  fmul x y := Qred (x * y);
  fdiv x y := if Qeq_bool y 0 then inl ZeroDivisionError
              else inr (Qred (x / y));
  fneg := Qopp;
  fabs := Qabs;
  feqb := Qeq_bool;
  fltb := Qltb;
  fleb := Qle_bool;
  fsum l := fold_left (fun acc x => Qred (acc + x)) l 0%Q;
  fround x := inr (Qround_half_even x);
  f0 := 0%Q;
  f1 := 1%Q;
  f1e_12 := (1 # 1000000000000)%Q;
|}.

(** Powers with an integral exponent are exact rationals; this instance
    takes the integral part of the exponent, and is used at integral
    exponents only. *)
#[export] Instance Q_Pow : Pow Q :=
  fun b e => inr (Qpower (inject_Z b) (Qfloor e)).

(** ** Vocabulary of the ranking order *)

(** Ascending lexicographic order of names, by code point. *)
Definition lex_lt (s t : string) : Prop := String.ltb s t = true.

(** [x] has to come before [y]: a greater score, or an equal score and a
    smaller name. *)
Definition ranks_before (x y : string * Q) : Prop :=
  (snd y < snd x)%Q \/ ((snd x == snd y)%Q /\ lex_lt (fst x) (fst y)).

(** Scores do not increase along the list, and entries with equal scores are
    in ascending order of name. *)
Definition ranked_order (l : list (string * Q)) : Prop :=
  forall (i j : nat) x y,
    (i < j)%nat -> l !! i = Some x -> l !! j = Some y ->
    (snd y <= snd x)%Q /\ ((snd x == snd y)%Q -> lex_lt (fst x) (fst y)).

(** ** Vocabulary of the fitter's rounds *)

Section Rounds.
Context {F : Type} `{Arith F}.
Context (wins : gmap string (gmap string Z)) (players : list string) (tol : F).

(** [reaches s k s']: started on [s], the loop has made [k] passes, none of
    which raised or met the stopping test, and holds [s']. *)
Inductive reaches : gmap string F -> nat -> gmap string F -> Prop :=
| reaches_O s : reaches s 0 s
| reaches_S s s1 delta k s' :
    bt_round wins players s = Ok (s1, delta) ->
    fltb delta tol = false ->
    reaches s1 k s' ->
    reaches s (S k) s'.

(** In the pass made on [s], the sum of the updated scores, taken before
    they are normalised, is not positive. *)
Definition degenerate_round (s : gmap string F) : Prop :=
  exists new_scores vs,
    mm_update wins players s = Ok new_scores
    /\ values players new_scores = Ok vs
    /\ fleb (fsum vs) f0 = true.

End Rounds.

(** ** Vocabulary of strength vectors *)

(** The data model's win matrices: counts are not negative. *)
Definition nonneg_counts (wins : gmap string (gmap string Z)) : Prop :=
  map_Forall (fun _ row => map_Forall (fun _ n => 0 <= n) row) wins.

(** The total of the wins of an entity. *)
Definition total_wins (wins : gmap string (gmap string Z)) (i : string) : Z :=
  sum_values (getd ∅ i wins).

(** The score of an entity in a strength vector. *)
Definition score (s : gmap string Q) (k : string) : Q := default 0%Q (s !! k).


(** Following the claim on re-seeding: the fitter with its loop (lines
    91-120, [bt_loop]) started on a given vector instead of the all-ones
    vector of line 89 ([rank.py] itself offers no such entry point). *)
Definition bradley_terry_seeded {F : Type} `{Arith F}
    (wins : gmap string (gmap string Z))
    (max_iters : Z) (tol : F) (seed : gmap string F)
  : result (gmap string F) :=
  bt_loop wins (sorted_keys wins) tol (Z.to_nat max_iters) seed.

(** ** Example win matrices *)

(** A beat B once and lost to B 10^13 times; C lost its only match. *)
Definition lopsided_wins : gmap string (gmap string Z) :=
  {[ "A" := {[ "B" := 1 ]};
     "B" := {[ "A" := 10000000000000; "C" := 1 ]};
     "C" := ∅ ]}.

(** Eleven matches between four entities, each with a win. *)
Definition seesaw_wins : gmap string (gmap string Z) :=
  {[ "A" := {[ "C" := 2 ]};
     "B" := {[ "D" := 1 ]};
     "C" := {[ "A" := 3; "B" := 1 ]};
     "D" := {[ "B" := 4 ]} ]}.

(** The entries of a strength vector, in the order of [players]. *)
Definition items (players : list string) (s : gmap string Q)
  : list (string * Q) :=
  map (fun k => (k, score s k)) players.


(** * Further vocabulary and code *)

(** ** Vocabulary of the win matrix builder *)

(** The components of an outcome [(a, b, winner)]. *)
Definition side_a (o : Outcome) : string := o.1.1.
Definition side_b (o : Outcome) : string := o.1.2.
Definition named_winner (o : Outcome) : string := o.2.

(** The side to which [build_win_matrix] gives the win of an outcome: [a]
    when the winner is [a], and [b] in every other case. *)
Definition credited (o : Outcome) : string :=
  if String.eqb (named_winner o) (side_a o) then side_a o else side_b o.

(** The other side. *)
Definition defeated (o : Outcome) : string :=
  if String.eqb (named_winner o) (side_a o) then side_b o else side_a o.

(** The number of the outcomes that satisfy [p]. *)
Definition count_outcomes (p : Outcome -> bool) (results : list Outcome) : Z :=
  Z.of_nat (length (List.filter p results)).

(** How often [x] is given a win over [y]. *)
Definition beats (results : list Outcome) (x y : string) : Z :=
  count_outcomes
    (fun o => String.eqb (credited o) x && String.eqb (defeated o) y) results.

(** How often [x] is given a win. *)
Definition won (results : list Outcome) (x : string) : Z :=
  count_outcomes (fun o => String.eqb (credited o) x) results.

(** How often [x] takes part: once for every side of an outcome it is on. *)
Definition played (results : list Outcome) (x : string) : Z :=
  count_outcomes (fun o => String.eqb (side_a o) x) results
  + count_outcomes (fun o => String.eqb (side_b o) x) results.

(** [x] is a side of some outcome. *)
Definition participant (results : list Outcome) (x : string) : Prop :=
  exists o, o ∈ results /\ (x = side_a o \/ x = side_b o).

(** The cell [wins[x].get(y, 0)] of a win matrix, 0 also when the row is
    missing. *)
Definition cell (wins : gmap string (gmap string Z)) (x y : string) : Z :=
  getd 0 y (getd ∅ x wins).

(** What [build_win_matrix] keeps true of its two maps, after the outcomes
    [results]. *)
Record built (results : list Outcome)
    (wins : gmap string (gmap string Z)) (records : gmap string (Z * Z))
  : Prop := {
  built_keys : forall x, is_Some (wins !! x) <-> participant results x;
  built_record_keys :
    forall x, is_Some (records !! x) <-> participant results x;
  built_cell : forall x y, cell wins x y = beats results x y;
  built_stored :
    forall x row y n, wins !! x = Some row -> row !! y = Some n -> 1 <= n;
  built_records :
    forall x, getd (0, 0) x records = (won results x, played results x);
  built_total : forall x, total_wins wins x = won results x;
}.

(** ** The configuration of [rank.py] *)

Definition MAX_ITERS : Z := 10000.
Definition TOL : Q := (1 # 10000000000)%Q.
Definition MAX_FIL_PER_APP : Z := 100000.
Definition MIN_FIL_PER_VOTE : Z := 500.
Definition POWER_LAW_ALPHA : Q := (8 # 10)%Q.
Definition POWER_LAW_TOP_N : Z := 30.
Definition BUDGET_FIL : Z := 510000.

(** * The pairing script: [vote.py] *)

Module Vote.

(** The exceptions of [vote.py].  [OutOfFuel] is no exception of Python: it
    is what the model of the [while] loop answers when its fuel is spent,
    which it never is. *)
Inductive error : Type :=
| MissingProjectName      (* ValueError, "Missing project_name in ..." *)
| DuplicateProjectName    (* ValueError, "Duplicate project_name detected" *)
| TooFewProjects          (* ValueError, "Need at least two projects ..." *)
| EmptyMin                (* ValueError, min() of an empty sequence *)
| MissingKey              (* KeyError *)
| PairingUnsatisfied      (* RuntimeError, "Unable to satisfy ..." *)
| UnexpectedWinner        (* ValueError, "Unexpected winner value" *)
| CodexFailed             (* what [call_codex] raises *)
| OutOfFuel.

Inductive res (A : Type) : Type :=
| Done (a : A)
| Throw (e : error).
Arguments Done {A} a.
Arguments Throw {A} e.

#[global] Instance res_ret : MRet res := fun A a => Done a.
#[global] Instance res_bind : MBind res := fun A B f r =>
  match r with
  | Done a => f a
  | Throw e => Throw e
  end.

(** [for x in xs: acc = body(acc, x)], stopping at the first exception. *)
Fixpoint each {A S : Type} (xs : list A) (body : S -> A -> res S) (acc : S)
  : res S :=
  match xs with
  | [] => Done acc
  | x :: xs' => acc' ← body acc x; each xs' body acc'
  end.

(** ** [rotate_roster] *)

(** [rest[-1:] + rest[:-1]] under the guard [len(roster) <= 2]. *)
Definition rotate_roster {A : Type} (roster : list A) : list A :=
  if (length roster <=? 2)%nat then roster
  else
    match roster with
    | [] => roster
    | first :: rest => first :: (slice_from (-1) rest ++ slice_to (-1) rest)%list
    end.

(** ** [load_projects] *)

Section Projects.
(** [Payload] is the content of an application file as [json.load] returns
    it, and [project_name] its field of that name as
    [data.get("project_name")] reads it, a string where there is one. *)
Context {Payload : Type} (project_name : Payload -> option string).

(** The body of the loop over the files; [projects] is the dict, as the
    list of its items in the order of insertion. *)
Definition load_step (projects : list (string * Payload)) (data : Payload)
  : res (list (string * Payload)) :=
  match project_name data with
  | None => Throw MissingProjectName
  | Some name =>
      if String.eqb name "" then Throw MissingProjectName
      else if bool_decide (name ∈ map fst projects)
           then Throw DuplicateProjectName
           else Done (projects ++ [(name, data)])%list
  end.

(** [files] are the payloads of [sorted(directory.glob("*.json"))], in that
    order. *)
Definition load_projects (files : list Payload)
  : res (list (string * Payload)) :=
  projects ← each files load_step [];
  if (length projects <? 2)%nat then Throw TooFewProjects else Done projects.

(** A dict entry that [load_projects] may hold: the name of the payload,
    not empty. *)
Definition named (entry : string * Payload) : Prop :=
  project_name entry.2 = Some entry.1 /\ entry.1 <> "".
End Projects.

(** ** [generate_pairs] *)

(** What [generate_pairs] asks of [random.Random]: the generator seeded with
    an integer, [rng.shuffle], and the test [rng.random() < 0.5]; the two
    draws give the next state of the generator as well. *)
Class Rng (G : Type) : Type := {
  seeded : Z -> G;
  shuffle : forall A : Type, G -> list A -> list A * G;
  coin : G -> bool * G;
}.

(** [{name: 0 for name in roster if name is not None}] *)
Definition counts_init (roster : list (option string)) : gmap string Z :=
  fold_left
    (fun m slot => match slot with Some name => <[name := 0]> m | None => m end)
    roster ∅.

(** [min(counts.values())] *)
Definition min_count (counts : gmap string Z) : res Z :=
  match (map_to_list counts).*2 with
  | [] => Throw EmptyMin
  | c :: cs => Done (fold_left Z.min cs c)
  end.

(** [counts[name] += 1] *)
Definition incr (name : string) (counts : gmap string Z)
  : res (gmap string Z) :=
  match counts !! name with
  | Some c => Done (<[name := c + 1]> counts)
  | None => Throw MissingKey
  end.

Section Pairing.
Context {G : Type} `{Rng G}.

(** What the loops of [generate_pairs] update. *)
Record state : Type := {
  pairs : list (string * string);
  counts : gmap string Z;
  rng : G;
}.

(** The body of [for left, right in zip(first_half, second_half)]. *)
Definition pair_step (st : state) (slots : option string * option string)
  : res state :=
  match slots with
  | (Some left_, Some right_) =>
      let '(swap, g) := coin (rng st) in
      let '(left_, right_) :=
        if swap then (right_, left_) else (left_, right_) in
      counts1 ← incr left_ (counts st);
      counts2 ← incr right_ counts1;
      Done {| pairs := (pairs st ++ [(left_, right_)])%list;
              counts := counts2; rng := g |}
  | _ => Done st
  end.

(** The slots the [for] loop walks through: the first half of the roster,
    each with the slot as far from the end as it is from the start. *)
Definition facing (roster : list (option string))
  : list (option string * option string) :=
  let half := (length roster / 2)%nat in
  zip (take half roster) (reverse (drop half roster)).

(** The [while] loop; [fuel] bounds the passes still allowed. *)
Fixpoint rounds (fuel : nat) (min_appearances max_rounds round_number : Z)
    (roster : list (option string)) (st : state)
  : res (list (string * string)) :=
  least ← min_count (counts st);
  if least <? min_appearances then
    match fuel with
    | O => Throw OutOfFuel
    | S fuel' =>
        st' ← each (facing roster) pair_step st;
        let round_number := round_number + 1 in
        if max_rounds <? round_number then Throw PairingUnsatisfied
        else rounds fuel' min_appearances max_rounds round_number
               (rotate_roster roster) st'
    end
  else Done (pairs st).

(** The roster after the shuffle, with the bye slot of an odd count. *)
Definition padded (roster : list (option string)) : list (option string) :=
  if (length roster mod 2 =? 1)%nat then (roster ++ [None])%list else roster.

Definition generate_pairs (projects : list string)
    (min_appearances seed : Z) : res (list (string * string)) :=
  let '(roster, g) := shuffle _ (seeded seed) (map Some projects) in
  let roster := padded roster in
  let max_rounds := (min_appearances + 1) * Z.of_nat (length roster) in
  rounds (Z.to_nat max_rounds + 1) min_appearances max_rounds 0 roster
    {| pairs := []; counts := counts_init roster; rng := g |}.
End Pairing.
Arguments state : clear implicits.

(** A small generator to run the model with: its shuffle reverses the list
    and its coin is a bit of a linear congruential sequence.  It stands for
    no generator of Python. *)
#[global] Instance lcg : Rng Z := {|
  seeded seed := seed;
  shuffle A g l := (reverse l, (g * 1103515245 + 12345) mod 2147483648);
  coin g := (Z.odd (g / 65536), (g * 1103515245 + 12345) mod 2147483648);
|}.

Definition MIN_APPEARANCES : Z := 10.
Definition SEED : Z := 100.

(** ** [build_prompt] and the evaluation of a pair in [main] *)

Definition newline : string := String "010" EmptyString.

Section Evaluation.
(** [dumps] is [json.dumps(_, indent=2)]; [call_codex] is the call of the
    external judge, and [get_winner] the field read by
    [response.get("winner")]. *)
Context {Payload Response : Type}.
Context (dumps : Payload -> string).
Context (call_codex : string -> res Response).
Context (get_winner : Response -> option string).

Definition build_prompt (project_a project_b : Payload) : string :=
  "Which project has been more impactful for Filecoin?" ++ newline
  ++ "<projects>" ++ newline
  ++ "<project_a>" ++ newline
  ++ dumps project_a ++ newline
  ++ "</project_a>" ++ newline
  ++ "<project_b>" ++ newline
  ++ dumps project_b ++ newline
  ++ "</project_b>" ++ newline
  ++ "</projects>".

(** [projects[name]] *)
Definition project (projects : list (string * Payload)) (name : string)
  : res Payload :=
  match list_find (fun entry => entry.1 = name) projects with
  | Some (_, (_, data)) => Done data
  | None => Throw MissingKey
  end.

(** [evaluate_pair], the function [main] maps over the pairs. *)
Definition evaluate_pair (projects : list (string * Payload))
    (pair : string * string) : res (string * string * string * string) :=
  let '(name_a, name_b) := pair in
  data_a ← project projects name_a;
  data_b ← project projects name_b;
  let prompt := build_prompt data_a data_b in
  response ← call_codex prompt;
  match get_winner response with
  | Some winner_key =>
      if String.eqb winner_key "project_a" || String.eqb winner_key "project_b"
      then
        let winner_name :=
          if String.eqb winner_key "project_a" then name_a else name_b in
        Done (name_a, name_b, winner_key, winner_name)
      else Throw UnexpectedWinner
  | None => Throw UnexpectedWinner
  end.
End Evaluation.

(** *** Vocabulary of the pairing *)

(** How often [x] is a side of a pair. *)
Definition appearances (x : string) (l : list (string * string)) : Z :=
  Z.of_nat (length (List.filter (fun p => String.eqb p.1 x) l))
  + Z.of_nat (length (List.filter (fun p => String.eqb p.2 x) l)).

(** How often [x] is a side of a pair of facing slots that are both taken. *)
Definition plays (x : string) (slots : option string * option string) : Z :=
  match slots with
  | (Some left_, Some right_) =>
      (if String.eqb left_ x then 1 else 0)
      + (if String.eqb right_ x then 1 else 0)
  | _ => 0
  end.

Definition occurrences (x : string)
    (l : list (option string * option string)) : Z :=
  foldr (fun slots n => plays x slots + n) 0 l.

(** The slots [a] and [b] are as far from the two ends of the roster. *)
Definition mirrored {A : Type} (roster : list A) (a b : A) : Prop :=
  exists i j : nat,
    (i + j + 1 = length roster)%nat
    /\ roster !! i = Some a /\ roster !! j = Some b.

(** The names on a roster. *)
Definition names_of (roster : list (option string)) : list string :=
  omap id roster.

(** The counts are kept for the names [names], and are the appearances in
    the pairs made so far. *)
Definition tallied {G : Type} (names : list string) (st : state G) : Prop :=
  (forall x, is_Some (counts st !! x) <-> x ∈ names)
  /\ forall x c, counts st !! x = Some c -> c = appearances x (pairs st).

(** A generator whose shuffle rearranges, as a shuffle does. *)
Definition fair_shuffle (G : Type) `{Rng G} : Prop :=
  forall (A : Type) (g : G) (l : list A), (shuffle A g l).1 ≡ₚ l.

End Vote.

(** ** From the pairing script to the ranking script *)

(** The row [csv.DictReader] reads back from the line that [vote.py] wrote
    for an evaluated pair, under its header
    [project_a, project_b, winner, winner_name]. *)
Definition row_of (evaluated : string * string * string * string) : Row :=
  let '(name_a, name_b, winner_key, winner_name) := evaluated in
  {| project_a := name_a; project_b := name_b;
     winner := Some winner_key; winner_name := Some winner_name |}.

(** The outcome that line stands for: the two names and the name of the
    winner, stripped. *)
Definition read_back (evaluated : string * string * string * string)
  : Outcome :=
  let '(name_a, name_b, _, winner_name) := evaluated in
  (strip name_a, strip name_b, strip winner_name).

(** * The arithmetic of the code: binary64 *)

(** A Python [float] is an IEEE 754 binary64 number, and [+], [-], [*], [/],
    [abs] and the comparisons on floats are the IEEE operations, rounding to
    nearest, ties to even: Rocq's primitive floats.  What Python adds is
    modelled on top of them: the conversion of an [int], which raises
    [OverflowError]; [/], which raises [ZeroDivisionError]; the builtin
    [sum]; and [int(round(x))]. *)
Module Binary64.
Import PrimFloat.

(** [float(z)] before its range check: the binary64 number nearest to the
    integer [z], ties to even, and an infinity when [z] is out of range.
    The 53 leading bits of [abs z] are kept and rounded on the bits cut. *)
Definition of_Z (z : Z) : float :=
  let a := Z.abs z in
  let cut := Z.max 0 (Z.log2 a + 1 - 53) in
  let m := Z.shiftr a cut in
  let rest := a - Z.shiftl m cut in
  let half := Z.shiftl 1 (cut - 1) in
  let up := (half <? rest) || ((rest =? half) && Z.odd m) in
  let m' := if (0 <? cut) && up then m + 1 else m in
  let f := FloatOps.Z.ldexp (of_uint63 (Uint63.of_Z m')) cut in
  if z <? 0 then opp f else f.

(** The conversion an [int] operand undergoes next to a [float] one:
    "int too large to convert to float" when the nearest float is not
    finite. *)
Definition int_to_float (z : Z) : arith_exn + float :=
  let f := of_Z z in
  if is_infinity f then inl OverflowError else inr f.

(** [x / y] on floats: [ZeroDivisionError] on a zero divisor of either
    sign. *)
Definition truediv (x y : float) : arith_exn + float :=
  if eqb y zero then inl ZeroDivisionError else inr (div x y).

(** The builtin [sum] on floats adds from left to right; from CPython 3.12
    on it also carries Neumaier's compensation term, added at the end unless
    it is zero or not finite.  Both are given. *)
Inductive summation : Type := Compensated | LeftToRight.

Definition sum_step (acc : float * float) (x : float) : float * float :=
  let '(f, c) := acc in
  let t := add f x in
  (t, if leb (abs x) (abs f) then add c (add (sub f t) x)
      else add c (add (sub x t) f)).

(** [sum] starts from the [int] 0, to which the first float is added. *)
Definition sum (how : summation) (xs : list float) : float :=
  match xs with
  | [] => zero
  | x :: xs' =>
      match how with
      | Compensated =>
          let '(f, c) := fold_left sum_step xs' (add zero x, zero) in
          if negb (eqb c zero) && is_finite c then add f c else f
      | LeftToRight => fold_left add xs' (add zero x)
      end
  end.

(** [m / d] rounded to the nearest integer, halves to the even neighbour. *)
Definition half_even (m d : Z) : Z :=
  let q := m / d in
  match 2 * (m mod d) ?= d with
  | Lt => q
  | Gt => q + 1
  | Eq => if Z.even q then q else q + 1
  end.

(** [int(round(x))]: [round] raises [OverflowError] on an infinity and
    [ValueError] on a NaN. *)
Definition round (x : float) : arith_exn + Z :=
  match FloatOps.Prim2SF x with
  | SpecFloat.S754_zero _ => inr 0
  | SpecFloat.S754_infinity _ => inl OverflowError
  | SpecFloat.S754_nan => inl NotANumber
  | SpecFloat.S754_finite s m e =>
      let n := if 0 <=? e then Z.pos m * 2 ^ e
               else half_even (Z.pos m) (2 ^ (- e)) in
      inr (if s then - n else n)
  end.

(** The float literal [1e-12]: the binary64 number nearest to 10^-12. *)
Definition floor_1e_12 : float := 0x1.19799812dea11p-40%float.

(** The float literal [1e-10] of [TOL]. *)
Definition TOL : float := 0x1.b7cdfd9d7bdbbp-34%float.

(** The float literal [0.8] of [POWER_LAW_ALPHA]. *)
Definition POWER_LAW_ALPHA : float := 0x1.999999999999ap-1%float.

(** The float literal [0.014], a tolerance of the examples. *)
Definition tol_0_014 : float := 0x1.cac083126e979p-7%float.

Definition arith (how : summation) : Arith float := {|
  of_int := int_to_float;
  fadd := add;
  fsub := sub;
  fmul := mul;
  fdiv := truediv;
  fneg := opp;
  fabs := abs;
  feqb := eqb;
  fltb := ltb;
  fleb := leb;
  fsum := sum how;
  fround := round;
  f0 := zero;
  f1 := one;
  f1e_12 := floor_1e_12;
|}.

(** The value of a finite float as a fraction [n / d]. *)
Definition to_fraction (x : float) : option (Z * Z) :=
  match FloatOps.Prim2SF x with
  | SpecFloat.S754_zero _ => Some (0, 1)
  | SpecFloat.S754_finite s m e =>
      let n := if s then Z.neg m else Z.pos m in
      Some (if 0 <=? e then (n * 2 ^ e, 1) else (n, 2 ^ (- e)))
  | _ => None
  end.
End Binary64.

(** ** Example win matrices with very large counts *)



(** A and B each beat the other once and were each recorded 10^308 times as
    winning against themselves (an outcome whose two sides are the same
    entity); C has no win. *)
Definition collapsing_wins : gmap string (gmap string Z) :=
  {[ "A" := {[ "A" := 10 ^ 308; "B" := 1 ]};
     "B" := {[ "A" := 1; "B" := 10 ^ 308 ]};
     "C" := ∅ ]}.

(** * Rows as [csv.DictReader] yields them *)

(** [load_results] reads the rows of a [csv.DictReader].  Such a row has a
    cell for every column of the header line: the text of the field, or
    [None] (the reader's [restval]) for a column that a short line does not
    reach.  The record [Row] above is the case in which every cell present
    is a text. *)
Module DictReader.

Inductive Cell : Type :=
| Text (s : string)
| NoneCell.         (* the line ended before this column *)

(** A row: its cell in each of the four columns the loader reads, [None]
    for a column that the header line does not have. *)
Record Row : Type := {
  cell_project_a : option Cell;
  cell_project_b : option Cell;
  cell_winner : option Cell;
  cell_winner_name : option Cell;
}.

(** [row[column]] *)
Definition item (cell : option Cell) : result Cell :=
  match cell with
  | Some c => Ok c
  | None => Raise KeyError
  end.

(** [row.get(column, "")] *)
Definition get_or_empty (cell : option Cell) : Cell :=
  default (Text "") cell.

(** [cell.strip()] *)
Definition strip_cell (cell : Cell) : result string :=
  match cell with
  | Text s => Ok (strip s)
  | NoneCell => Raise AttributeError
  end.

(** Body of the [for row in reader] loop up to [rows.append]. *)
Definition load_row (row : Row) : result Outcome :=
  cell_a ← item (cell_project_a row);
  a ← strip_cell cell_a;
  cell_b ← item (cell_project_b row);
  b ← strip_cell cell_b;
  winner_key ← strip_cell (get_or_empty (cell_winner row));
  winner_name ← strip_cell (get_or_empty (cell_winner_name row));
  w ← (if negb (String.eqb winner_name "") then Ok winner_name
        else if String.eqb winner_key "project_a" then Ok a
        else if String.eqb winner_key "project_b" then Ok b
        else Raise UnrecognizedWinner);
  if negb (String.eqb w a || String.eqb w b) then Raise WinnerNotInPair
  else Ok (a, b, w).

Definition load_results (reader : list Row) : result (list Outcome) :=
  rows ← for_each reader
           (fun rows row => o ← load_row row; Ok (rows ++ [o])%list) [];
  match rows with
  | [] => Raise NoComparisonData
  | _ => Ok rows
  end.
End DictReader.

(** A row all of whose cells are texts, as a row of the reader. *)
Definition of_texts (row : Row) : DictReader.Row :=
  {| DictReader.cell_project_a := Some (DictReader.Text (project_a row));
     DictReader.cell_project_b := Some (DictReader.Text (project_b row));
     DictReader.cell_winner := DictReader.Text <$> winner row;
     DictReader.cell_winner_name := DictReader.Text <$> winner_name row |}.

(** The line [A,B] under the header
    [project_a,project_b,winner,winner_name]: the last two cells are
    [None]. *)
Definition short_row : DictReader.Row :=
  {| DictReader.cell_project_a := Some (DictReader.Text "A");
     DictReader.cell_project_b := Some (DictReader.Text "B");
     DictReader.cell_winner := Some DictReader.NoneCell;
     DictReader.cell_winner_name := Some DictReader.NoneCell |}.

(** * Vocabulary of the passes and of the ranking *)

(** [scores.items()], the entries of the dict in the order [players] in
    which its keys were inserted. *)
Definition entries {F : Type} (players : list string) (s : gmap string F)
  : list (string * F) :=
  omap (fun k => v ← s !! k; Some (k, v)) players.

Section Renormalized.
Context {F : Type} `{Arith F}.


End Renormalized.
(** * Properties *)

(** ** Win matrix builder *)

(** C7: on the outcome list [(A,B,A); (A,B,B); (A,C,A)] the builder returns
    the win matrix with exactly the counts A over B = 1, A over C = 1 and
    B over A = 1, where A, B and C are all keys (C with an empty row), and
    the records A = (2,3), B = (1,2), C = (0,1). *)
Theorem build_win_matrix_example :
  build_win_matrix [("A", "B", "A"); ("A", "B", "B"); ("A", "C", "A")]
  = ( {[ "A" := {[ "B" := 1; "C" := 1 ]};
         "B" := {[ "A" := 1 ]};
         "C" := ∅ ]},
      {[ "A" := (2, 3); "B" := (1, 2); "C" := (0, 1) ]} ).
Proof. vm_compute. reflexivity. Qed.

(** ** Outcome ingestion *)

Section Ingestion.
Lemma load_row_cases (row : Row) :
  (indicator_unrecognized row /\ load_row row = Raise UnrecognizedWinner)
  \/ (winner_outside_pair row /\ load_row row = Raise WinnerNotInPair)
  \/ (~ malformed row /\ load_row row = Ok (outcome_of row)).
Proof.
  unfold load_row, malformed, winner_outside_pair, indicator_unrecognized,
    outcome_of, resolved_winner.
  fold (name_a row) (name_b row) (side_key row) (explicit_name row).
  destruct (String.eqb_spec (explicit_name row) "") as [En|En]; simpl.
  - destruct (String.eqb_spec (side_key row) "project_a") as [Ka|Ka]; simpl.
    + rewrite String.eqb_refl. simpl. right. right. intuition congruence.
    + destruct (String.eqb_spec (side_key row) "project_b") as [Kb|Kb]; simpl.
      * rewrite String.eqb_refl, orb_true_r. simpl.
        right. right. intuition congruence.
      * left. auto.
  - destruct (String.eqb_spec (explicit_name row) (name_a row)) as [Wa|Wa];
      simpl.
    + right. right. intuition congruence.
    + destruct (String.eqb_spec (explicit_name row) (name_b row)) as [Wb|Wb];
        simpl.
      * right. right. intuition congruence.
      * right. left. intuition congruence.
Qed.

Lemma malformed_dec (row : Row) : {malformed row} + {~ malformed row}.
Proof.
  unfold malformed, winner_outside_pair, indicator_unrecognized.
  destruct (string_dec (explicit_name row) "");
    destruct (string_dec (side_key row) "project_a");
    destruct (string_dec (side_key row) "project_b");
    destruct (string_dec (resolved_winner row) (name_a row));
    destruct (string_dec (resolved_winner row) (name_b row));
    try (left; tauto); try (right; tauto).
Qed.

Lemma read_rows_valid (reader : list Row) (rows : list Outcome) :
  Forall (fun row => ~ malformed row) reader ->
  read_rows reader rows = Ok (rows ++ map outcome_of reader)%list.
Proof.
  unfold read_rows. revert rows.
  induction reader as [|row reader IH]; intros rows Hall; simpl.
  - by rewrite app_nil_r.
  - inversion Hall as [|? ? Hrow Hrest]; subst.
    destruct (load_row_cases row) as [[Hm _]|[[Hm _]|[_ ->]]];
      [exfalso; apply Hrow; by left | exfalso; apply Hrow; by right |].
    simpl. rewrite IH by assumption. by rewrite <- app_assoc.
Qed.

Lemma read_rows_malformed (reader : list Row) (rows : list Outcome) :
  Exists malformed reader ->
  exists e, read_rows reader rows = Raise e /\ MalformedRecord e.
Proof.
  unfold read_rows. revert rows.
  induction reader as [|row reader IH]; intros rows Hex.
  - inversion Hex.
  - simpl.
    destruct (load_row_cases row) as [[_ ->]|[[_ ->]|[Hok ->]]]; simpl.
    + exists UnrecognizedWinner. split; [done | by left].
    + exists WinnerNotInPair. split; [done | by right].
    + apply IH. inversion Hex; subst; [contradiction | assumption].
Qed.

Lemma rows_valid_or_malformed (reader : list Row) :
  Forall (fun row => ~ malformed row) reader \/ Exists malformed reader.
Proof.
  induction reader as [|row reader [IH|IH]].
  - left. constructor.
  - destruct (malformed_dec row).
    + right. by constructor.
    + left. by constructor.
  - right. by constructor 2.
Qed.

Lemma load_results_read (reader : list Row) :
  load_results reader =
    (rows ← read_rows reader [];
     match rows with [] => Raise NoComparisonData | _ => Ok rows end).
Proof. reflexivity. Qed.
End Ingestion.

(** The contract of ingestion on rows all of whose cells are texts: it
    fails with a [MalformedRecord] error exactly when some row is malformed
    (its winner indicator is empty or unrecognised, or its resolved winner
    is neither participant); it fails with an [EmptyInput] error exactly
    when there is no row at all; and otherwise it returns the outcome of
    every row, in the order of the rows. *)
Lemma load_results_contract (reader : list Row) :
  (Exists malformed reader <->
     exists e, load_results reader = Raise e /\ MalformedRecord e)
  /\ (reader = [] <->
        exists e, load_results reader = Raise e /\ EmptyInput e)
  /\ (Forall (fun row => ~ malformed row) reader -> reader <> [] ->
        load_results reader = Ok (map outcome_of reader)).
Proof.
  rewrite load_results_read.
  destruct (rows_valid_or_malformed reader) as [Hall|Hex].
  - rewrite (read_rows_valid reader [] Hall). simpl.
    assert (Hnot : ~ Exists malformed reader).
    { intros Hex. apply Exists_exists in Hex as (row & Hin & Hm).
      rewrite Forall_forall in Hall. exact (Hall row Hin Hm). }
    destruct reader as [|row reader]; simpl.
    + split; [|split].
      * split; [intros Hex; inversion Hex|].
        intros (e & He & [->| ->]); discriminate.
      * split; [intros _; by exists NoComparisonData|done].
      * intros _ Hne. by destruct Hne.
    + split; [|split].
      * split; [intros Hex; contradiction|]. intros (e & He & _); discriminate.
      * split; [discriminate|]. intros (e & He & _); discriminate.
      * done.
  - destruct (read_rows_malformed reader [] Hex) as (e & -> & He). simpl.
    split; [|split].
    + split; [intros _; by exists e | done].
    + split.
      * intros ->. inversion Hex.
      * intros (e' & [= <-] & He'). unfold EmptyInput in He'.
        destruct He as [->| ->]; discriminate.
    + intros Hall. apply Exists_exists in Hex as (row & Hin & Hm).
      rewrite Forall_forall in Hall. destruct (Hall row Hin Hm).
Qed.




(** ** Power-law allocator *)

Section AllocatorFacts.
Context {F : Type} `{Arith F} `{Pow F}.

(** What the [enumerate] loop leaves in [allocations]. *)
Lemma alloc_loop_values ws scale max_fil min_fil entries :
  forall (m0 m : gmap string Z),
    for_each entries (alloc_step ws scale max_fil min_fil) m0 = Ok m ->
    forall name v, m !! name = Some v ->
      m0 !! name = Some v \/ exists alloc, v = clamp max_fil min_fil alloc.
Proof.
  induction entries as [|[idx [n s]] entries IH]; intros m0 m Hrun name v Hv.
  - simpl in Hrun. injection Hrun as <-. by left.
  - simpl in Hrun.
    destruct (ws !! (idx - 1)%nat) as [w|]; simpl in Hrun; [|discriminate].
    destruct (fround (fmul scale w)) as [e|alloc]; simpl in Hrun;
      [discriminate|].
    destruct (IH _ _ Hrun name v Hv) as [Hin|Hcl]; [|by right].
    destruct (decide (n = name)) as [->|Hne].
    + rewrite lookup_insert_eq in Hin. injection Hin as <-. right. eauto.
    + rewrite lookup_insert_ne in Hin by done. by left.
Qed.

Lemma alloc_loop_present ws scale max_fil min_fil entries :
  forall (m0 m : gmap string Z),
    for_each entries (alloc_step ws scale max_fil min_fil) m0 = Ok m ->
    forall name,
      is_Some (m0 !! name) \/ name ∈ map (fun e => fst (snd e)) entries ->
      is_Some (m !! name).
Proof.
  induction entries as [|[idx [n s]] entries IH]; intros m0 m Hrun name Hname.
  - simpl in Hrun. injection Hrun as <-.
    destruct Hname as [?|Hin]; [done | by apply elem_of_nil in Hin].
  - simpl in Hrun.
    destruct (ws !! (idx - 1)%nat) as [w|]; simpl in Hrun; [|discriminate].
    destruct (fround (fmul scale w)) as [e|alloc]; simpl in Hrun;
      [discriminate|].
    apply (IH _ _ Hrun). simpl in Hname.
    destruct (decide (n = name)) as [->|Hne].
    + left. rewrite lookup_insert_eq. eauto.
    + rewrite lookup_insert_ne by done.
      destruct Hname as [?|Hin]; [by left|].
      apply elem_of_cons in Hin as [?|?]; [congruence | by right].
Qed.

(** What the closing loop over [ranked[top_n:]] does. *)
Lemma zero_fill_lookup (rest : list (string * F)) :
  forall (m0 : gmap string Z) name,
    fold_left (fun m entry => <[fst entry := 0]> m) rest m0 !! name
    = if decide (name ∈ map fst rest) then Some 0 else m0 !! name.
Proof.
  induction rest as [|[n s] rest IH]; intros m0 name.
  - reflexivity.
  - cbn [fold_left]. rewrite IH.
    change (map fst ((n, s) :: rest)) with (n :: map fst rest).
    destruct (decide (name ∈ map fst rest)) as [Hin|Hnin].
    + rewrite decide_True; [done | by apply elem_of_cons; right].
    + destruct (decide (n = name)) as [->|Hne].
      * rewrite decide_True by (apply elem_of_cons; by left).
        apply lookup_insert_eq.
      * rewrite decide_False
          by (intros [?|?]%elem_of_cons; [congruence | done]).
        by apply lookup_insert_ne.
Qed.

Lemma enumerate_names (consider : list (string * F)) :
  map (fun e : nat * (string * F) => fst (snd e))
      (zip (seq 1 (length consider)) consider)
  = map fst consider.
Proof.
  rewrite <- (map_map snd fst). f_equal.
  apply snd_zip. by rewrite length_seq.
Qed.

(** The allocator, once the weights and the scale are computed. *)
Lemma powerlaw_allocations_inv ranked alpha top_n max_fil min_fil budget_fil m :
  powerlaw_allocations ranked alpha top_n max_fil min_fil budget_fil = Ok m ->
  exists ws scale looped,
    for_each (zip (seq 1 (length (slice_to top_n ranked)))
                (slice_to top_n ranked))
      (alloc_step ws scale max_fil min_fil) ∅ = Ok looped
    /\ m = fold_left (fun m entry => <[fst entry := 0]> m)
             (slice_from top_n ranked) looped.
Proof.
  unfold powerlaw_allocations. intros Hrun.
  destruct (weights alpha (length (slice_to top_n ranked))) as [ws|e];
    simpl in Hrun; [|discriminate].
  destruct (lift (of_int budget_fil)) as [b|e]; simpl in Hrun; [|discriminate].
  destruct (lift (fdiv b _)) as [scale|e]; simpl in Hrun; [|discriminate].
  destruct (for_each _ _ _) as [looped|e] eqn:Hloop; simpl in Hrun;
    [|discriminate].
  injection Hrun as <-. eauto.
Qed.
End AllocatorFacts.

(** C6: the map the allocator returns has an entry for every entity of the
    ranked list, and, [top_n] being a window size (not negative), every
    entity at a 1-based rank greater than [top_n] has the allocation 0,
    whatever the budget, the exponent and the clamp bounds. *)
Theorem allocation_covers_ranked {F : Type} `{Arith F} `{Pow F}
    (ranked : list (string * F)) (alpha : F)
    (top_n max_fil min_fil budget_fil : Z) (m : gmap string Z) :
  powerlaw_allocations ranked alpha top_n max_fil min_fil budget_fil = Ok m ->
  (forall name, name ∈ map fst ranked -> is_Some (m !! name))
  /\ (0 <= top_n ->
      forall (i : nat) name score,
        ranked !! i = Some (name, score) -> top_n < Z.of_nat i + 1 ->
        m !! name = Some 0).
Proof.
  intros Hrun.
  destruct (powerlaw_allocations_inv _ _ _ _ _ _ _ Hrun)
    as (ws & scale & looped & Hloop & ->).
  split.
  - intros name Hin. rewrite zero_fill_lookup.
    destruct (decide _) as [_|Hrest]; [eauto|].
    apply (alloc_loop_present _ _ _ _ _ _ _ Hloop). right.
    rewrite enumerate_names.
    rewrite <- (take_drop (slice_bound top_n ranked) ranked) in Hin.
    rewrite map_app in Hin. apply elem_of_app in Hin as [Hin|Hin]; [done|].
    by destruct Hrest.
  - intros Hwin i name score Hi Hrank. rewrite zero_fill_lookup.
    rewrite decide_True; [done|].
    unfold slice_from, slice_bound.
    destruct (Z.ltb_spec top_n 0) as [?|_]; [lia|].
    apply (list_elem_of_fmap_2 fst _ (name, score)).
    apply list_elem_of_lookup.
    exists (i - Z.to_nat top_n)%nat. rewrite lookup_drop.
    replace (Z.to_nat top_n + (i - Z.to_nat top_n))%nat with i by lia.
    exact Hi.
Qed.

Lemma allocation_covers_ranked_witness :
  let ranked := [("a", 3 # 4); ("b", 1 # 4); ("c", 1 # 8)]%Q in
  let m : gmap string Z := {[ "a" := 100000; "b" := 100000; "c" := 0 ]} in
  powerlaw_allocations ranked 1%Q 2 100000 500 510000 = Ok m
  /\ is_Some (m !! "b")
  /\ m !! "c" = Some 0.
Proof.
  intros ranked m.
  assert (Hrun : powerlaw_allocations ranked 1%Q 2 100000 500 510000 = Ok m)
    by (vm_compute; reflexivity).
  destruct (allocation_covers_ranked ranked 1%Q 2 100000 500 510000 m Hrun)
    as [Hall Hzero].
  split; [exact Hrun|]. split.
  - apply Hall. apply (bool_decide_unpack _). vm_compute. reflexivity.
  - apply (Hzero ltac:(lia) 2%nat "c" (1 # 8)%Q); [reflexivity | lia].
Defined.


(** ** Ranker *)

Section InsertionSort.
Context {A : Type} (lt : A -> A -> bool) (R : relation A).
Hypothesis R_trans : Transitive R.

Lemma insert_sorted_perm (x : A) (l : list A) :
  insert_sorted lt x l ≡ₚ x :: l.
Proof.
  induction l as [|y l IH]; simpl; [done|].
  destruct (lt y x); [|done].
  rewrite IH. apply Permutation_swap.
Qed.

Lemma sorted_perm (l : list A) : sorted lt l ≡ₚ l.
Proof.
  induction l as [|x l IH]; simpl; [done|].
  by rewrite insert_sorted_perm, IH.
Qed.

(** Inserting [x] keeps the list sorted, provided [lt] decides [R] on [x]
    and the elements of the list, any two of which are comparable. *)
Lemma insert_sorted_sorted (x : A) (l : list A) :
  (forall y, y ∈ l -> (lt y x = true -> R y x) /\ (lt y x = false -> R x y)) ->
  StronglySorted R l -> StronglySorted R (insert_sorted lt x l).
Proof.
  intros Hcmp Hl. induction Hl as [|y l Hl IH Hy]; simpl.
  - repeat constructor.
  - destruct (Hcmp y) as [Hlt Hge]; [by left|].
    destruct (lt y x) eqn:E.
    + constructor.
      * apply IH. intros z Hz. apply Hcmp. by right.
      * rewrite insert_sorted_perm. constructor; auto.
    + constructor; [by constructor|].
      constructor; [auto|].
      eapply Forall_impl; [exact Hy|]. intros z Hz.
      trans y; [by apply Hge | done].
Qed.
End InsertionSort.

Section RankerFacts.
Local Open Scope Q_scope.

Lemma lex_lt_irrefl (s : string) : ~ lex_lt s s.
Proof.
  unfold lex_lt, String.ltb. destruct (String.compare s s) eqn:E; try done.
  intros _. pose proof (String.compare_antisym s s) as Ha.
  rewrite E in Ha. discriminate.
Qed.

Lemma lex_lt_trans (s t u : string) : lex_lt s t -> lex_lt t u -> lex_lt s u.
Proof.
  unfold lex_lt, String.ltb. intros Hst Htu.
  destruct (String.compare s t) eqn:Est; try discriminate.
  destruct (String.compare t u) eqn:Etu; try discriminate.
  pose proof (StrictOrder_Transitive (R := OrdersEx.String_as_OT.lt) s t u
                Est Etu) as Hsu.
  unfold OrdersEx.String_as_OT.lt in Hsu.
  change (OrdersEx.String_as_OT.compare s u) with (String.compare s u) in Hsu.
  by rewrite Hsu.
Qed.

Lemma lex_lt_total (s t : string) : s <> t -> lex_lt s t \/ lex_lt t s.
Proof.
  intros Hne. unfold lex_lt, String.ltb.
  destruct (String.compare s t) eqn:E.
  - by apply String.compare_eq_iff in E.
  - by left.
  - right. rewrite String.compare_antisym, E. done.
Qed.

(** The comparison of the sort keys [(-score, name)], read on scores. *)
Lemma key_lt_spec (x y : string * Q) :
  key_lt x y = true <-> ranks_before x y.
Proof.
  unfold key_lt, ranks_before, lex_lt. cbn [feqb fneg fltb Q_Arith].
  destruct (Qeq_bool (- snd x) (- snd y)) eqn:E.
  - apply Qeq_bool_iff in E.
    assert (Heq : snd x == snd y) by lra.
    split; [intros Hlt; by right|].
    intros [Hlt|[_ Hlt]]; [lra | done].
  - assert (Hne : ~ snd x == snd y).
    { intros Heq. apply Qeq_bool_neq in E. apply E. lra. }
    unfold Qltb. rewrite negb_true_iff. split.
    + intros Hle. left.
      destruct (Qlt_le_dec (snd y) (snd x)) as [?|Hge]; [done|].
      assert (Hb : Qle_bool (- snd y) (- snd x) = true)
        by (apply Qle_bool_iff; lra).
      congruence.
    + intros [Hlt|[Heq _]]; [|done].
      destruct (Qle_bool (- snd y) (- snd x)) eqn:Eb; [|done].
      apply Qle_bool_iff in Eb. lra.
Qed.

Lemma ranks_before_irrefl (x : string * Q) : ~ ranks_before x x.
Proof.
  intros [Hlt|[_ Hlt]]; [lra | by apply lex_lt_irrefl in Hlt].
Qed.

#[local] Instance ranks_before_trans : Transitive ranks_before.
Proof.
  intros x y z [Hxy|[Exy Lxy]] [Hyz|[Eyz Lyz]].
  - left. lra.
  - left. lra.
  - left. lra.
  - right. split; [lra | by eapply lex_lt_trans].
Qed.

Lemma ranks_before_total (x y : string * Q) :
  fst x <> fst y -> ranks_before x y \/ ranks_before y x.
Proof.
  intros Hne. unfold ranks_before.
  destruct (Q_dec (snd x) (snd y)) as [[Hlt|Hgt]|Heq].
  - right. by left.
  - left. by left.
  - destruct (lex_lt_total _ _ Hne); [left|right]; right; split;
      [done | done | lra | done].
Qed.

Lemma ranks_before_asym (x y : string * Q) :
  ranks_before x y -> ranks_before y x -> False.
Proof.
  intros Hxy Hyx. apply (ranks_before_irrefl x). by trans y.
Qed.

Lemma rank_scores_sorted (items : list (string * Q)) :
  NoDup (map fst items) -> StronglySorted ranks_before (rank_scores items).
Proof.
  unfold rank_scores.
  induction items as [|x items IH]; intros Hnd; simpl; [constructor|].
  apply NoDup_cons in Hnd as [Hx Hnd].
  apply insert_sorted_sorted; [apply _ | | by apply IH].
  intros y Hy. rewrite sorted_perm in Hy.
  assert (Hne : fst y <> fst x).
  { intros Heq. apply Hx. rewrite <- Heq. by apply list_elem_of_fmap_2. }
  split.
  - by intros ?%key_lt_spec.
  - intros Hnlt. destruct (ranks_before_total y x Hne) as [Hyx|]; [|done].
    apply key_lt_spec in Hyx. congruence.
Qed.

Lemma StronglySorted_lookup {A} (R : relation A) (l : list A) :
  StronglySorted R l <->
  forall (i j : nat) x y,
    (i < j)%nat -> l !! i = Some x -> l !! j = Some y -> R x y.
Proof.
  split.
  - intros Hl. induction Hl as [|x l Hl IH Hx]; intros i j a b Hij Hi Hj.
    + by rewrite lookup_nil in Hi.
    + destruct j as [|j]; [lia|]. simpl in Hj.
      destruct i as [|i]; simpl in Hi.
      * injection Hi as <-. rewrite Forall_forall in Hx. apply Hx.
        by eapply list_elem_of_lookup_2.
      * apply (IH i j); [lia | done | done].
  - induction l as [|x l IH]; intros Hl; constructor.
    + apply IH. intros i j a b Hij Hi Hj.
      apply (Hl (S i) (S j)); [lia | done | done].
    + apply Forall_forall. intros y Hy.
      apply list_elem_of_lookup in Hy as [j Hj].
      apply (Hl 0%nat (S j)); [lia | done | done].
Qed.

Lemma ranked_order_sorted (l : list (string * Q)) :
  ranked_order l <-> StronglySorted ranks_before l.
Proof.
  rewrite StronglySorted_lookup. unfold ranked_order, ranks_before.
  split; intros Hl i j x y Hij Hi Hj.
  - destruct (Hl i j x y Hij Hi Hj) as [Hle Htie].
    destruct (Qlt_le_dec (snd y) (snd x)) as [?|Hge]; [by left|].
    right. assert (snd x == snd y) by lra. auto.
  - destruct (Hl i j x y Hij Hi Hj) as [Hlt|[Heq Hlex]].
    + split; [lra|]. intros Heq. lra.
    + split; [lra | done].
Qed.
End RankerFacts.

(** C4: for a strength vector (entries with pairwise distinct names), the
    ranker returns exactly its entries, in an order in which scores do not
    increase and entries with equal scores come in ascending lexicographic
    order of name.  That order is total: of two entries with different
    names exactly one has to come first.  So the result is determined: it
    is the only arrangement of the entries that respects the order, whatever
    order the entries are given in.  ([sorted] builds a new list; the
    argument is a value the function cannot change.) *)
Theorem rank_scores_spec (items : list (string * Q)) :
  NoDup (map fst items) ->
  rank_scores items ≡ₚ items
  /\ ranked_order (rank_scores items)
  /\ (forall x y, fst x <> fst y ->
        (ranks_before x y \/ ranks_before y x)
        /\ ~ (ranks_before x y /\ ranks_before y x))
  /\ (forall l, l ≡ₚ items -> ranked_order l -> l = rank_scores items)
  /\ (forall items', items' ≡ₚ items -> rank_scores items' = rank_scores items).
Proof.
  intros Hnd.
  assert (Hperm : rank_scores items ≡ₚ items) by apply sorted_perm.
  assert (Hsorted := rank_scores_sorted items Hnd).
  assert (Huniq : forall l, l ≡ₚ items -> StronglySorted ranks_before l ->
                            l = rank_scores items).
  { intros l Hl Hs.
    apply (StronglySorted_unique_strong ranks_before); [|done|done|].
    - intros x y _ _ Hxy Hyx. destruct (ranks_before_asym x y Hxy Hyx).
    - by rewrite Hl, Hperm. }
  split; [done|]. split; [by apply ranked_order_sorted|].
  split; [|split].
  - intros x y Hne. split; [by apply ranks_before_total|].
    intros [Hxy Hyx]. exact (ranks_before_asym x y Hxy Hyx).
  - intros l Hl Ho. apply Huniq; [done | by apply ranked_order_sorted].
  - intros items' Hitems. apply Huniq.
    + etrans; [apply sorted_perm | done].
    + apply rank_scores_sorted. by rewrite Hitems.
Qed.

Lemma rank_scores_spec_witness :
  let items := [("b", 1 # 2); ("a", 2 # 4); ("c", 3 # 4)]%Q in
  NoDup (map fst items)
  /\ rank_scores items = [("c", 3 # 4); ("a", 2 # 4); ("b", 1 # 2)]%Q
  /\ ranked_order (rank_scores items)
  /\ rank_scores (rev items) = rank_scores items.
Proof.
  intros items.
  assert (Hnd : NoDup (map fst items))
    by (apply (bool_decide_unpack _); vm_compute; reflexivity).
  destruct (rank_scores_spec items Hnd) as (_ & Horder & _ & _ & Hany).
  split; [exact Hnd|]. split; [vm_compute; reflexivity|].
  split; [exact Horder|].
  apply Hany. symmetry. apply Permutation_rev.
Defined.


(** ** Bradley-Terry fitter: control flow *)

Section FitterControl.
Context {F : Type} `{Arith F}.

Lemma lift_not_degenerate {A} (r : arith_exn + A) :
  lift r <> Raise FailedToNormalize.
Proof. by destruct r. Qed.

Lemma get_not_degenerate {V} (k : string) (m : gmap string V) :
  get k m <> Raise FailedToNormalize.
Proof. unfold get. by destruct (m !! k). Qed.

(** A loop raises only what its body raises. *)
Lemma for_each_raise {A S} (xs : list A) (body : S -> A -> result S) acc e :
  for_each xs body acc = Raise e ->
  exists a x, body a x = Raise e.
Proof.
  revert acc. induction xs as [|x xs IH]; intros acc Hrun; [discriminate|].
  simpl in Hrun. destruct (body acc x) as [acc'|e'] eqn:E; simpl in Hrun.
  - by apply (IH acc').
  - injection Hrun as ->. eauto.
Qed.

Ltac not_degenerate :=
  repeat match goal with
  | Hrun : mbind _ ?r = Raise FailedToNormalize |- _ =>
      let E := fresh "E" in
      destruct r eqn:E; simpl in Hrun;
      [| injection Hrun as ->;
         first [ by apply get_not_degenerate in E
               | by apply lift_not_degenerate in E ] ]
  | Hrun : (if ?b then _ else _) = Raise FailedToNormalize |- _ =>
      destruct b
  | Hrun : lift _ = Raise FailedToNormalize |- _ =>
      by apply lift_not_degenerate in Hrun
  | Hrun : get _ _ = Raise FailedToNormalize |- _ =>
      by apply get_not_degenerate in Hrun
  | Hrun : Ok _ = Raise _ |- _ => discriminate
  end.

Lemma denom_step_not_degenerate wins (scores : gmap string F) i denom j :
  denom_step wins scores i denom j <> Raise FailedToNormalize.
Proof. unfold denom_step. intros Hrun. not_degenerate. Qed.

Lemma new_score_not_degenerate wins players (scores : gmap string F) i :
  new_score wins players scores i <> Raise FailedToNormalize.
Proof.
  unfold new_score. intros Hrun.
  destruct (get i wins) as [wi|e] eqn:Ewi; simpl in Hrun;
    [|injection Hrun as ->; by apply get_not_degenerate in Ewi].
  destruct (sum_values wi =? 0); [discriminate|].
  destruct (for_each players _ f0) as [denom|e] eqn:Ed; simpl in Hrun.
  - not_degenerate.
  - injection Hrun as ->. apply for_each_raise in Ed as (a & x & Hstep).
    by apply denom_step_not_degenerate in Hstep.
Qed.

Lemma mm_update_not_degenerate wins players (scores : gmap string F) :
  mm_update wins players scores <> Raise FailedToNormalize.
Proof.
  unfold mm_update. intros (a & x & Hrun)%for_each_raise.
  destruct (new_score wins players scores x) eqn:E; simpl in Hrun;
    [discriminate|].
  injection Hrun as ->. by apply new_score_not_degenerate in E.
Qed.

Lemma values_not_degenerate keys (m : gmap string F) :
  values keys m <> Raise FailedToNormalize.
Proof.
  unfold values. intros (a & x & Hrun)%for_each_raise. not_degenerate.
Qed.

Lemma normalize_not_degenerate keys total (m : gmap string F) :
  normalize keys total m <> Raise FailedToNormalize.
Proof.
  unfold normalize. intros (a & x & Hrun)%for_each_raise. not_degenerate.
Qed.

Lemma max_delta_not_degenerate players (m1 m2 : gmap string F) :
  max_delta players m1 m2 <> Raise FailedToNormalize.
Proof.
  unfold max_delta. intros Hrun.
  destruct (for_each players _ []) as [ds|e] eqn:E; simpl in Hrun.
  - by destruct ds.
  - injection Hrun as ->. apply for_each_raise in E as (a & x & Hrun).
    not_degenerate.
Qed.

(** A pass raises the normalisation error exactly when the sum it is about
    to divide by is not positive. *)
Lemma bt_round_degenerate wins players (s : gmap string F) :
  bt_round wins players s = Raise FailedToNormalize
  <-> degenerate_round wins players s.
Proof.
  unfold bt_round, degenerate_round. split.
  - intros Hrun.
    destruct (mm_update wins players s) as [new|e] eqn:Em; simpl in Hrun;
      [|injection Hrun as ->; by apply mm_update_not_degenerate in Em].
    destruct (values players new) as [vs|e] eqn:Ev; simpl in Hrun;
      [|injection Hrun as ->; by apply values_not_degenerate in Ev].
    destruct (fleb (fsum vs) f0) eqn:Et; [by eauto|].
    destruct (normalize players (fsum vs) new) as [normed|e] eqn:En;
      simpl in Hrun;
      [|injection Hrun as ->; by apply normalize_not_degenerate in En].
    destruct (max_delta players normed s) as [d|e] eqn:Ed; simpl in Hrun;
      [discriminate|].
    injection Hrun as ->. by apply max_delta_not_degenerate in Ed.
  - intros (new & vs & -> & Hv & Ht). simpl. rewrite Hv. simpl.
    by rewrite Ht.
Qed.

Lemma bt_loop_degenerate wins players tol (n : nat) :
  forall s0 : gmap string F,
    bt_loop wins players tol n s0 = Raise FailedToNormalize
    <-> exists k s, (k < n)%nat /\ reaches wins players tol s0 k s
                    /\ degenerate_round wins players s.
Proof.
  induction n as [|n IH]; intros s0; simpl.
  - split; [discriminate|]. intros (k & s & Hk & _). lia.
  - destruct (bt_round wins players s0) as [[s1 d]|e] eqn:Er; simpl.
    + destruct (fltb d tol) eqn:Ed.
      * split; [discriminate|]. intros (k & s & Hk & Hreach & Hdeg).
        apply bt_round_degenerate in Hdeg.
        inversion Hreach as [|? s2 d2 k2 ? Hr Hd Hreach2]; subst; congruence.
      * rewrite IH. split.
        -- intros (k & s & Hk & Hreach & Hdeg).
           exists (S k), s. split; [lia|]. split; [|done].
           by eapply reaches_S.
        -- intros (k & s & Hk & Hreach & Hdeg).
           inversion Hreach as [|? s2 d2 k2 ? Hr Hd Hreach2]; subst.
           ++ apply bt_round_degenerate in Hdeg. congruence.
           ++ assert (s1 = s2) as <- by congruence.
              exists k2, s. split; [lia|]. done.
    + split.
      * intros [= ->]. exists 0%nat, s0. split; [lia|].
        split; [constructor | by apply bt_round_degenerate].
      * intros (k & s & Hk & Hreach & Hdeg).
        apply bt_round_degenerate in Hdeg.
        inversion Hreach as [|? s2 d2 k2 ? Hr Hd Hreach2]; subst; congruence.
Qed.

(** When no pass meets the stopping test, the loop ends with the scores of
    its last pass. *)
Lemma bt_loop_cap wins players tol (n : nat) :
  forall s0 s : gmap string F,
    reaches wins players tol s0 n s -> bt_loop wins players tol n s0 = Ok s.
Proof.
  induction n as [|n IH]; intros s0 s Hreach;
    inversion Hreach as [|? s2 d2 k2 ? Hr Hd Hreach2]; subst; simpl.
  - done.
  - rewrite Hr. simpl. rewrite Hd. by apply IH.
Qed.

End FitterControl.

(** C2: the fitter fails with the normalisation error ([DegenerateModel])
    if and only if, in some pass of the loop, reached without an earlier
    pass meeting the stopping test, the sum of the updated scores is not
    positive before normalisation.  When the cap is reached without any
    pass meeting the stopping test, the fitter does not fail: it returns
    the scores of the last pass. *)
Theorem bradley_terry_failure {F : Type} `{Arith F}
    (wins : gmap string (gmap string Z)) (max_iters : Z) (tol : F) :
  let players := sorted_keys wins in
  ((exists e, bradley_terry wins max_iters tol = Raise e /\ DegenerateModel e)
   <-> exists k s,
         (k < Z.to_nat max_iters)%nat
         /\ reaches wins players tol (init_scores players) k s
         /\ degenerate_round wins players s)
  /\ (forall s,
        reaches wins players tol (init_scores players) (Z.to_nat max_iters) s ->
        bradley_terry wins max_iters tol = Ok s).
Proof.
  intros players. unfold bradley_terry. fold players. split.
  - rewrite <- bt_loop_degenerate. unfold DegenerateModel. split.
    + by intros (e & -> & ->).
    + intros Hrun. eauto.
  - apply bt_loop_cap.
Qed.

(** The failure is reachable: on the empty matrix the first pass sums no
    score at all, and the sum 0 is not positive. *)
Lemma bradley_terry_failure_witness :
  let wins : gmap string (gmap string Z) := ∅ in
  let tol := (1 # 10000000000)%Q in
  bradley_terry wins 10000 tol = Raise FailedToNormalize
  /\ exists k s,
       (k < Z.to_nat 10000)%nat
       /\ reaches wins (sorted_keys wins) tol
            (init_scores (sorted_keys wins)) k s
       /\ degenerate_round wins (sorted_keys wins) s.
Proof.
  intros wins tol.
  assert (Hrun : bradley_terry wins 10000 tol = Raise FailedToNormalize)
    by (vm_compute; reflexivity).
  split; [exact Hrun|].
  apply (proj1 (proj1 (bradley_terry_failure wins 10000 tol))).
  exists FailedToNormalize. split; [exact Hrun | reflexivity].
Defined.


(** ** The players of a matrix *)

Section Players.
Context {V : Type} (m : gmap string V).

Lemma sorted_keys_elem (i : string) : i ∈ sorted_keys m <-> is_Some (m !! i).
Proof.
  unfold sorted_keys. rewrite sorted_perm, elem_of_elements.
  apply elem_of_dom.
Qed.

Lemma sorted_keys_nodup : NoDup (sorted_keys m).
Proof.
  unfold sorted_keys. rewrite sorted_perm. apply NoDup_elements.
Qed.

End Players.


(** ** Re-seeding the fitter *)


(** * Further properties of the code *)

(** ** The win matrix builder on any list of outcomes *)

Section Builder.

Lemma build_win_matrix_snoc (results : list Outcome) (o : Outcome) :
  build_win_matrix (results ++ [o])
  = build_step (build_win_matrix results) o.
Proof. unfold build_win_matrix. by rewrite fold_left_app. Qed.

Lemma count_outcomes_snoc p (results : list Outcome) (o : Outcome) :
  count_outcomes p (results ++ [o])
  = count_outcomes p results + (if p o then 1 else 0).
Proof.
  unfold count_outcomes. rewrite List.filter_app, length_app. simpl.
  destruct (p o); simpl; lia.
Qed.

Lemma count_outcomes_nonneg p (results : list Outcome) :
  0 <= count_outcomes p results.
Proof. unfold count_outcomes. lia. Qed.

Lemma touch_lookup {V} (dflt : V) (k x : string) (m : gmap string V) :
  touch dflt k m !! x
  = match m !! x with
    | Some v => Some v
    | None => if decide (x = k) then Some dflt else None
    end.
Proof.
  unfold touch. destruct (m !! k) eqn:Ek.
  - destruct (m !! x) eqn:Ex; [done|]. destruct (decide (x = k)); [|done].
    congruence.
  - destruct (decide (x = k)) as [->|Hne].
    + by rewrite lookup_insert_eq, Ek.
    + rewrite lookup_insert_ne by done. by destruct (m !! x).
Qed.

Lemma touch_is_Some {V} (dflt : V) (k x : string) (m : gmap string V) :
  is_Some (touch dflt k m !! x) <-> x = k \/ is_Some (m !! x).
Proof.
  rewrite touch_lookup. destruct (m !! x) eqn:Ex.
  - split; eauto.
  - destruct (decide (x = k)); split; eauto; intros [?|[? ?]]; done.
Qed.

Lemma touch_getd {V} (dflt : V) (k x : string) (m : gmap string V) :
  getd dflt x (touch dflt k m) = getd dflt x m.
Proof.
  unfold getd. rewrite touch_lookup. destruct (m !! x); [done|].
  by destruct (decide (x = k)).
Qed.

Lemma incr_win_is_Some (c d x : string) (wins : gmap string (gmap string Z)) :
  is_Some (incr_win c d wins !! x) <-> x = c \/ is_Some (wins !! x).
Proof.
  unfold incr_win. destruct (decide (x = c)) as [->|Hne].
  - rewrite lookup_insert_eq. split; eauto.
  - rewrite lookup_insert_ne by done. split; [eauto|]. by intros [?|?].
Qed.

Lemma incr_win_cell (c d x y : string) (wins : gmap string (gmap string Z)) :
  cell (incr_win c d wins) x y
  = cell wins x y + (if decide (x = c /\ y = d) then 1 else 0).
Proof.
  unfold cell, incr_win, getd. destruct (decide (x = c)) as [->|Hx].
  - rewrite lookup_insert_eq. simpl. destruct (decide (y = d)) as [->|Hy].
    + rewrite lookup_insert_eq. simpl. by rewrite decide_True.
    + rewrite lookup_insert_ne by done. rewrite decide_False by tauto. lia.
  - rewrite lookup_insert_ne by done. rewrite decide_False by tauto. lia.
Qed.

Lemma sum_values_insert (row : gmap string Z) (y : string) (v : Z) :
  sum_values (<[y := v]> row) = sum_values row - getd 0 y row + v.
Proof.
  unfold sum_values, getd.
  assert (Hins : forall (m : gmap string Z) k w, m !! k = None ->
            map_fold (fun _ v acc => acc + v) 0 (<[k := w]> m)
            = map_fold (fun _ v acc => acc + v) 0 m + w).
  { intros m k w Hk.
    rewrite (map_fold_insert_L (fun _ v acc => acc + v) 0 k w m); [done| |done].
    intros. lia. }
  rewrite <- (insert_delete_eq row y v).
  rewrite Hins by apply lookup_delete_eq.
  destruct (row !! y) as [n|] eqn:Ey; simpl.
  - rewrite <- (insert_delete_id row y n Ey) at 2.
    rewrite Hins by apply lookup_delete_eq. lia.
  - rewrite (delete_id row y Ey). lia.
Qed.

Lemma incr_win_total (c d x : string) (wins : gmap string (gmap string Z)) :
  total_wins (incr_win c d wins) x
  = total_wins wins x + (if decide (x = c) then 1 else 0).
Proof.
  unfold total_wins, incr_win. set (row := getd ∅ c wins).
  destruct (decide (x = c)) as [->|Hx].
  - replace (getd ∅ c (<[c := <[d := getd 0 d row + 1]> row]> wins))
      with (<[d := getd 0 d row + 1]> row)
      by (unfold getd; by rewrite lookup_insert_eq).
    rewrite sum_values_insert. subst row. lia.
  - replace (getd ∅ x (<[c := <[d := getd 0 d row + 1]> row]> wins))
      with (getd ∅ x wins)
      by (unfold getd; by rewrite lookup_insert_ne).
    lia.
Qed.

Lemma touch_total (k x : string) (wins : gmap string (gmap string Z)) :
  total_wins (touch ∅ k wins) x = total_wins wins x.
Proof. unfold total_wins. by rewrite touch_getd. Qed.

Lemma touch_cell (k x y : string) (wins : gmap string (gmap string Z)) :
  cell (touch ∅ k wins) x y = cell wins x y.
Proof. unfold cell. by rewrite touch_getd. Qed.

Lemma bump_is_Some (k x : string) (dw : Z) (records : gmap string (Z * Z)) :
  is_Some (bump k dw records !! x) <-> x = k \/ is_Some (records !! x).
Proof.
  unfold bump. destruct (getd (0, 0) k records) as [w t].
  destruct (decide (x = k)) as [->|Hne].
  - rewrite lookup_insert_eq. split; eauto.
  - rewrite lookup_insert_ne by done. split; [eauto|]. by intros [?|?].
Qed.

Lemma bump_getd (k x : string) (dw : Z) (records : gmap string (Z * Z)) :
  getd (0, 0) x (bump k dw records)
  = if decide (x = k)
    then ((getd (0, 0) x records).1 + dw, (getd (0, 0) x records).2 + 1)
    else getd (0, 0) x records.
Proof.
  unfold bump. destruct (getd (0, 0) k records) as [w t] eqn:Ek.
  destruct (decide (x = k)) as [->|Hne].
  - unfold getd at 1. rewrite lookup_insert_eq. simpl. by rewrite Ek.
  - unfold getd at 1 2. by rewrite lookup_insert_ne.
Qed.

Lemma incr_win_stored (c d : string) (wins : gmap string (gmap string Z)) :
  (forall x row y n, wins !! x = Some row -> row !! y = Some n -> 1 <= n) ->
  forall x row y n,
    incr_win c d wins !! x = Some row -> row !! y = Some n -> 1 <= n.
Proof.
  intros Hstored x row y n. unfold incr_win.
  destruct (decide (x = c)) as [->|Hx].
  - rewrite lookup_insert_eq. intros [= <-].
    destruct (decide (y = d)) as [->|Hy].
    + rewrite lookup_insert_eq. intros [= <-]. unfold getd at 1.
      destruct (getd ∅ c wins !! d) as [n0|] eqn:En0; simpl; [|lia].
      unfold getd in En0. destruct (wins !! c) as [row|] eqn:Ec; simpl in En0.
      * pose proof (Hstored c row d n0 Ec En0). lia.
      * by rewrite lookup_empty in En0.
    + rewrite lookup_insert_ne by done. unfold getd.
      destruct (wins !! c) as [row|] eqn:Ec; simpl.
      * by apply (Hstored c).
      * by rewrite lookup_empty.
  - rewrite lookup_insert_ne by done. apply Hstored.
Qed.

Lemma touch_stored (k : string) (wins : gmap string (gmap string Z)) :
  (forall x row y n, wins !! x = Some row -> row !! y = Some n -> 1 <= n) ->
  forall x row y n,
    touch ∅ k wins !! x = Some row -> row !! y = Some n -> 1 <= n.
Proof.
  intros Hstored x row y n. rewrite touch_lookup.
  destruct (wins !! x) as [row0|] eqn:Ex.
  - intros [= <-]. by apply (Hstored x).
  - destruct (decide (x = k)); [|done]. intros [= <-].
    by rewrite lookup_empty.
Qed.

Lemma build_step_sides (wins : gmap string (gmap string Z))
    (records : gmap string (Z * Z)) (o : Outcome) :
  build_step (wins, records) o
  = (touch ∅ (side_b o)
       (touch ∅ (side_a o) (incr_win (credited o) (defeated o) wins)),
     touch (0, 0) (side_b o)
       (touch (0, 0) (side_a o)
          (bump (defeated o) 0 (bump (credited o) 1 records)))).
Proof.
  destruct o as [[a b] w].
  unfold build_step, credited, defeated, side_a, side_b, named_winner. simpl.
  by destruct (String.eqb w a).
Qed.

Lemma credited_sides (o : Outcome) :
  (credited o = side_a o /\ defeated o = side_b o)
  \/ (credited o = side_b o /\ defeated o = side_a o).
Proof.
  unfold credited, defeated.
  destruct (String.eqb (named_winner o) (side_a o)); tauto.
Qed.

Lemma participant_snoc (results : list Outcome) (o : Outcome) (x : string) :
  participant (results ++ [o]) x
  <-> participant results x \/ x = side_a o \/ x = side_b o.
Proof.
  unfold participant. split.
  - intros (o' & Hin & Hx).
    rewrite elem_of_app, list_elem_of_singleton in Hin.
    destruct Hin as [Hin| ->]; [left; eauto | by right].
  - intros [(o' & Hin & Hx)|Hx].
    + exists o'. split; [|done]. rewrite elem_of_app. by left.
    + exists o. split; [|done].
      rewrite elem_of_app, list_elem_of_singleton. by right.
Qed.

Lemma eqb_decide (s t : string) :
  String.eqb s t = bool_decide (t = s).
Proof.
  destruct (String.eqb_spec s t) as [->|Hne].
  - by rewrite bool_decide_eq_true_2.
  - by rewrite bool_decide_eq_false_2.
Qed.

Lemma build_win_matrix_built (results : list Outcome) :
  built results (build_win_matrix results).1 (build_win_matrix results).2.
Proof.
  induction results as [|o results IH] using rev_ind.
  - split; simpl.
    + intros x. rewrite lookup_empty. split; [by intros [? ?]|].
      intros (o & Hin & _). by apply elem_of_nil in Hin.
    + intros x. rewrite lookup_empty. split; [by intros [? ?]|].
      intros (o & Hin & _). by apply elem_of_nil in Hin.
    + done.
    + intros x row y n. by rewrite lookup_empty.
    + done.
    + done.
  - rewrite build_win_matrix_snoc.
    destruct (build_win_matrix results) as [wins records]. simpl in IH.
    rewrite build_step_sides. simpl.
    destruct IH as [Hkeys Hrkeys Hcell Hstored Hrec Htotal].
    pose proof (credited_sides o) as Hsides.
    split.
    + intros x. rewrite !touch_is_Some, incr_win_is_Some, Hkeys,
        participant_snoc.
      destruct Hsides as [[-> _]|[-> _]]; tauto.
    + intros x. rewrite !touch_is_Some, !bump_is_Some, Hrkeys,
        participant_snoc.
      destruct Hsides as [[-> ->]|[-> ->]]; tauto.
    + intros x y. rewrite !touch_cell, incr_win_cell, Hcell.
      unfold beats. rewrite count_outcomes_snoc, !eqb_decide.
      repeat case_decide; repeat case_bool_decide; simpl; try lia; tauto.
    + by apply touch_stored, touch_stored, incr_win_stored.
    + intros x. rewrite !touch_getd, !bump_getd, Hrec.
      unfold won, played. rewrite !count_outcomes_snoc, !eqb_decide. simpl.
      destruct Hsides as [[-> ->]|[-> ->]];
        repeat case_decide; repeat case_bool_decide; simpl;
        try congruence; f_equal; lia.
    + intros x. rewrite !touch_total, incr_win_total, Htotal.
      unfold won. rewrite count_outcomes_snoc, eqb_decide.
      case_decide; case_bool_decide; simpl; try lia; congruence.
Qed.

Lemma count_outcomes_le p q r (results : list Outcome) :
  (forall o, p o = true -> q o = true \/ r o = true) ->
  count_outcomes p results
  <= count_outcomes q results + count_outcomes r results.
Proof.
  intros Hpqr. induction results as [|o results IH] using rev_ind.
  - done.
  - rewrite !count_outcomes_snoc. specialize (Hpqr o).
    destruct (p o), (q o), (r o); first [lia | by destruct Hpqr].
Qed.

Lemma count_outcomes_pos p (results : list Outcome) (o : Outcome) :
  o ∈ results -> p o = true -> 1 <= count_outcomes p results.
Proof.
  intros Hin Hp. induction results as [|o' results IH] using rev_ind.
  - by apply elem_of_nil in Hin.
  - rewrite count_outcomes_snoc.
    rewrite elem_of_app, list_elem_of_singleton in Hin.
    pose proof (count_outcomes_nonneg p results).
    destruct Hin as [Hin| <-].
    + specialize (IH Hin). destruct (p o'); lia.
    + rewrite Hp. lia.
Qed.

Lemma count_outcomes_ext p q (results : list Outcome) :
  (forall o, o ∈ results -> p o = q o) ->
  count_outcomes p results = count_outcomes q results.
Proof.
  induction results as [|o results IH] using rev_ind; intros Hpq; [done|].
  rewrite !count_outcomes_snoc, IH, Hpq; [done| |].
  - rewrite elem_of_app, list_elem_of_singleton. by right.
  - intros o' Hin. apply Hpq. rewrite elem_of_app. by left.
Qed.

End Builder.

(** X1: whatever the outcomes, the keys of the win matrix and the keys of
    the records are the same: the entities that are a side of some outcome,
    winners or not. *)
Theorem build_win_matrix_registers (results : list Outcome) (x : string) :
  (is_Some ((build_win_matrix results).1 !! x) <-> participant results x)
  /\ (is_Some ((build_win_matrix results).2 !! x) <-> participant results x).
Proof.
  destruct (build_win_matrix_built results) as [Hkeys Hrkeys _ _ _ _].
  split; [apply Hkeys | apply Hrkeys].
Qed.

(** X2: the cell [wins[x].get(y, 0)] of the matrix built is the number of
    the outcomes in which [x] is given the win over [y]; a cell that is
    stored holds that number and is at least 1, so the matrix has no
    negative count. *)
Theorem build_win_matrix_cells (results : list Outcome) :
  let wins := (build_win_matrix results).1 in
  (forall x y, cell wins x y = beats results x y)
  /\ (forall x row y n,
        wins !! x = Some row -> row !! y = Some n ->
        1 <= n /\ n = beats results x y)
  /\ nonneg_counts wins.
Proof.
  intros wins.
  destruct (build_win_matrix_built results) as [_ _ Hcell Hstored _ _].
  fold wins in Hcell, Hstored.
  split; [exact Hcell|]. split.
  - intros x row y n Hrow Hn. split; [by apply (Hstored x row y)|].
    rewrite <- Hcell. unfold cell, getd. by rewrite Hrow; simpl; rewrite Hn.
  - intros x row Hrow y n Hn. pose proof (Hstored x row y n Hrow Hn). lia.
Qed.

(** X3: for an entity that is a side of some outcome, the record is the
    pair of the number of wins it is given and the number of sides it is on;
    the first is the sum of its row of the matrix, and is at most the
    second, which is at least 1. *)
Theorem build_win_matrix_records (results : list Outcome) (x : string) :
  participant results x ->
  (build_win_matrix results).2 !! x
  = Some (won results x, played results x)
  /\ won results x = total_wins (build_win_matrix results).1 x
  /\ 0 <= won results x <= played results x
  /\ 1 <= played results x.
Proof.
  intros Hx.
  destruct (build_win_matrix_built results) as [_ Hrkeys _ _ Hrec Htotal].
  split.
  - apply Hrkeys in Hx as [r Hr]. specialize (Hrec x).
    unfold getd in Hrec. rewrite Hr in Hrec. simpl in Hrec. congruence.
  - split; [by rewrite Htotal|]. split; [split|].
    + apply count_outcomes_nonneg.
    + apply count_outcomes_le. intros o.
      rewrite !String.eqb_eq.
      destruct (credited_sides o) as [[-> _]|[-> _]]; tauto.
    + destruct Hx as (o & Hin & [->| ->]); unfold played.
      * pose proof (count_outcomes_pos
                      (fun o' => String.eqb (side_a o') (side_a o))
                      results o Hin (String.eqb_refl _)).
        pose proof (count_outcomes_nonneg
                      (fun o' => String.eqb (side_b o') (side_a o)) results).
        lia.
      * pose proof (count_outcomes_pos
                      (fun o' => String.eqb (side_b o') (side_b o))
                      results o Hin (String.eqb_refl _)).
        pose proof (count_outcomes_nonneg
                      (fun o' => String.eqb (side_a o') (side_b o)) results).
        lia.
Qed.

Lemma build_win_matrix_records_witness :
  let results : list Outcome := [("A", "B", "A"); ("C", "A", "A")] in
  participant results "A"
  /\ (build_win_matrix results).2 !! "A" = Some (2, 2)
  /\ total_wins (build_win_matrix results).1 "A" = 2.
Proof.
  intros results.
  assert (Hx : participant results "A").
  { exists ("A", "B", "A"). split; [apply list_elem_of_here | by left]. }
  split; [exact Hx|].
  destruct (build_win_matrix_records results "A" Hx) as (Hrec & Htotal & _).
  split; [exact Hrec | by rewrite <- Htotal].
Defined.

(** ** From ingestion to the builder *)

Lemma load_results_Ok (reader : list Row) (results : list Outcome) :
  load_results reader = Ok results ->
  Forall (fun row => ~ malformed row) reader /\ reader <> []
  /\ results = map outcome_of reader.
Proof.
  intros Hrun. rewrite load_results_read in Hrun.
  destruct (rows_valid_or_malformed reader) as [Hvalid|Hbad].
  - rewrite (read_rows_valid reader [] Hvalid) in Hrun. simpl in Hrun.
    destruct reader as [|row reader]; [discriminate|].
    simpl in Hrun. injection Hrun as <-. done.
  - destruct (read_rows_malformed reader [] Hbad) as (e & He & _).
    rewrite He in Hrun. discriminate.
Qed.

Lemma outcome_of_valid (row : Row) :
  ~ malformed row ->
  named_winner (outcome_of row) = side_a (outcome_of row)
  \/ named_winner (outcome_of row) = side_b (outcome_of row).
Proof.
  intros Hok. unfold named_winner, side_a, side_b, outcome_of. simpl.
  destruct (decide (resolved_winner row = name_a row)) as [?|Ha]; [by left|].
  destruct (decide (resolved_winner row = name_b row)) as [?|Hb]; [by right|].
  exfalso.
  assert (Hdec : indicator_unrecognized row \/ ~ indicator_unrecognized row).
  { unfold indicator_unrecognized.
    destruct (decide (explicit_name row = "")),
      (decide (side_key row = "project_a")),
      (decide (side_key row = "project_b")); tauto. }
  destruct Hdec as [Hun|Hrec]; apply Hok; [by left | right; by split].
Qed.

Lemma credited_valid (o : Outcome) :
  named_winner o = side_a o \/ named_winner o = side_b o ->
  credited o = named_winner o.
Proof.
  unfold credited. destruct (String.eqb_spec (named_winner o) (side_a o)).
  - done.
  - intros [?|?]; congruence.
Qed.

(** X4: the outcomes ingestion returns all name their winner among their
    two sides; built from them, the record of an entity holds the number of
    the rows it won, by name, and the number of the sides it was on. *)
Theorem ingested_records (reader : list Row) (results : list Outcome)
    (x : string) :
  load_results reader = Ok results ->
  Forall
    (fun o => named_winner o = side_a o \/ named_winner o = side_b o) results
  /\ forall w t,
       (build_win_matrix results).2 !! x = Some (w, t) ->
       w = count_outcomes (fun o => String.eqb (named_winner o) x) results
       /\ t = count_outcomes (fun o => String.eqb (side_a o) x) results
              + count_outcomes (fun o => String.eqb (side_b o) x) results.
Proof.
  intros Hrun. apply load_results_Ok in Hrun as (Hvalid & _ & ->).
  assert (Hsides : Forall
            (fun o => named_winner o = side_a o \/ named_winner o = side_b o)
            (map outcome_of reader)).
  { apply Forall_fmap. eapply Forall_impl; [exact Hvalid|].
    intros row Hrow. by apply outcome_of_valid. }
  split; [exact Hsides|]. intros w t Hrec.
  destruct (build_win_matrix_built (map outcome_of reader))
    as [_ _ _ _ Hgetd _].
  specialize (Hgetd x). unfold getd in Hgetd. rewrite Hrec in Hgetd.
  simpl in Hgetd. injection Hgetd as -> ->. split; [|done].
  apply count_outcomes_ext. intros o Hin.
  rewrite Forall_forall in Hsides. by rewrite (credited_valid o (Hsides o Hin)).
Qed.

Lemma ingested_records_witness :
  let reader :=
    [ {| project_a := "A"; project_b := "B";
         winner := Some "project_b"; winner_name := None |};
      {| project_a := " B "; project_b := "C";
         winner := None; winner_name := Some "B" |} ] in
  exists results,
    load_results reader = Ok results
    /\ (build_win_matrix results).2 !! "B" = Some (2, 2).
Proof.
  intros reader.
  assert (Hrun : load_results reader
                 = Ok [("A", "B", "B"); ("B", "C", "B")])
    by (vm_compute; reflexivity).
  exists [("A", "B", "B"); ("B", "C", "B")]. split; [exact Hrun|].
  destruct (ingested_records reader _ "B" Hrun) as [_ Hrec].
  assert (Hlook : (build_win_matrix [("A", "B", "B"); ("B", "C", "B")]).2
                  !! "B" = Some (2, 2)) by (vm_compute; reflexivity).
  destruct (Hrec 2 2 Hlook) as [_ _]. exact Hlook.
Defined.

(** ** More on the allocator *)

Section AllocatorKeys.
Context {F : Type} `{Arith F} `{Pow F}.

Lemma alloc_loop_keys ws scale max_fil min_fil entries :
  forall (m0 m : gmap string Z),
    for_each entries (alloc_step ws scale max_fil min_fil) m0 = Ok m ->
    forall name,
      is_Some (m !! name) ->
      is_Some (m0 !! name) \/ name ∈ map (fun e => fst (snd e)) entries.
Proof.
  induction entries as [|[idx [n s]] entries IH]; intros m0 m Hrun name Hname.
  - simpl in Hrun. injection Hrun as <-. by left.
  - simpl in Hrun.
    destruct (ws !! (idx - 1)%nat) as [w|]; simpl in Hrun; [|discriminate].
    destruct (fround (fmul scale w)) as [e|alloc]; simpl in Hrun;
      [discriminate|].
    destruct (IH _ _ Hrun name Hname) as [Hin|Hin].
    + destruct (decide (n = name)) as [->|Hne].
      * right. simpl. apply elem_of_cons. by left.
      * rewrite lookup_insert_ne in Hin by done. by left.
    + right. simpl. apply elem_of_cons. by right.
Qed.

Lemma ranked_window (top_n : Z) (ranked : list (string * F)) (name : string) :
  name ∈ map fst ranked
  <-> name ∈ map fst (slice_to top_n ranked)
      \/ name ∈ map fst (slice_from top_n ranked).
Proof.
  unfold slice_to, slice_from.
  rewrite <- (take_drop (slice_bound top_n ranked) ranked) at 1.
  by rewrite map_app, elem_of_app.
Qed.
Lemma powerlaw_allocations_keys ranked alpha top_n max_fil min_fil budget_fil
    (m : gmap string Z) :
  powerlaw_allocations ranked alpha top_n max_fil min_fil budget_fil = Ok m ->
  forall name, is_Some (m !! name) <-> name ∈ map fst ranked.
Proof.
  intros Hrun name.
  destruct (powerlaw_allocations_inv _ _ _ _ _ _ _ Hrun)
    as (ws & scale & looped & Hloop & ->).
  rewrite zero_fill_lookup. split.
  - intros Hname. apply (ranked_window top_n).
    destruct (decide (name ∈ map fst (slice_from top_n ranked)))
      as [Hin|Hnin]; [by right|]. left.
    destruct (alloc_loop_keys _ _ _ _ _ _ _ Hloop name Hname) as [Hempty|Hin].
    + rewrite lookup_empty in Hempty. by destruct Hempty.
    + by rewrite enumerate_names in Hin.
  - intros Hin. apply (ranked_window top_n) in Hin.
    destruct (decide (name ∈ map fst (slice_from top_n ranked)))
      as [?|Hnin]; [eauto|].
    destruct Hin as [Hin|Hin]; [|done].
    apply (alloc_loop_present _ _ _ _ _ _ _ Hloop). right.
    by rewrite enumerate_names.
Qed.

End AllocatorKeys.

(** X5: the map the allocator returns has the names of the ranked list as
    its keys and no other key. *)
Theorem allocation_keys {F : Type} `{Arith F} `{Pow F}
    (ranked : list (string * F)) (alpha : F)
    (top_n max_fil min_fil budget_fil : Z) (m : gmap string Z) :
  powerlaw_allocations ranked alpha top_n max_fil min_fil budget_fil = Ok m ->
  forall name, is_Some (m !! name) <-> name ∈ map fst ranked.
Proof. apply powerlaw_allocations_keys. Qed.

Lemma allocation_keys_witness :
  let ranked := [("a", 3 # 4); ("b", 1 # 4); ("c", 1 # 8)]%Q in
  exists m,
    powerlaw_allocations ranked 1%Q 2 100000 500 510000 = Ok m
    /\ m !! "d" = None.
Proof.
  intros ranked.
  assert (Hrun : powerlaw_allocations ranked 1%Q 2 100000 500 510000
                 = Ok {[ "a" := 100000; "b" := 100000; "c" := 0 ]})
    by (vm_compute; reflexivity).
  eexists. split; [exact Hrun|].
  apply eq_None_not_Some.
  rewrite (allocation_keys ranked 1%Q 2 100000 500 510000 _ Hrun "d").
  apply (bool_decide_unpack _). vm_compute. reflexivity.
Defined.

(** ** More on the fitter *)

Section FitterKeys.
Context {F : Type} `{Arith F}.

Lemma init_scores_lookup (players : list string) (k : string) :
  init_scores players !! k = if decide (k ∈ players) then Some f1 else None.
Proof.
  unfold init_scores.
  assert (Hgen : forall m0 : gmap string F,
            fold_left (fun m p => <[p := f1]> m) players m0 !! k
            = if decide (k ∈ players) then Some f1 else m0 !! k).
  { induction players as [|p players IH]; intros m0; cbn [fold_left].
    - rewrite decide_False; [done | apply not_elem_of_nil].
    - rewrite IH. destruct (decide (k ∈ players)) as [Hin|Hnin].
      + rewrite decide_True; [done | by apply elem_of_cons; right].
      + destruct (decide (k = p)) as [->|Hne].
        * rewrite decide_True by (apply elem_of_cons; by left).
          apply lookup_insert_eq.
        * rewrite decide_False
            by (intros [?|?]%elem_of_cons; [congruence | done]).
          by apply lookup_insert_ne. }
  by rewrite Hgen, lookup_empty.
Qed.

Lemma mm_update_keys wins players (scores new : gmap string F) :
  mm_update wins players scores = Ok new ->
  forall k, is_Some (new !! k) <-> k ∈ players.
Proof.
  unfold mm_update.
  assert (Hgen : forall (m0 m : gmap string F),
            for_each players
              (fun new_scores i =>
                 v ← new_score wins players scores i;
                 Ok (<[i := v]> new_scores)) m0 = Ok m ->
            forall k, is_Some (m !! k) <-> is_Some (m0 !! k) \/ k ∈ players).
  { generalize players at 1 3 as keys.
    induction keys as [|i keys IH]; intros m0 m Hrun k.
    - simpl in Hrun. injection Hrun as <-. split; [by left|].
      intros [?|Hin]; [done | by apply elem_of_nil in Hin].
    - simpl in Hrun.
      destruct (new_score wins players scores i) as [v|e]; simpl in Hrun;
        [|discriminate].
      rewrite (IH _ _ Hrun k), elem_of_cons.
      destruct (decide (k = i)) as [->|Hne].
      + rewrite lookup_insert_eq. split; eauto.
      + rewrite lookup_insert_ne by done. tauto. }
  intros Hrun k. rewrite (Hgen _ _ Hrun k), lookup_empty.
  split; [intros [[? ?]|?]; done | by right].
Qed.

Lemma normalize_keys keys total (m0 m : gmap string F) :
  normalize keys total m0 = Ok m ->
  forall k, is_Some (m !! k) <-> is_Some (m0 !! k).
Proof.
  unfold normalize. revert m0.
  induction keys as [|i keys IH]; intros m0 Hrun k.
  - simpl in Hrun. by injection Hrun as <-.
  - cbn [for_each] in Hrun.
    destruct (get i m0) as [v|e] eqn:Ei; cbn [mbind result_bind] in Hrun;
      [|discriminate].
    unfold get in Ei. destruct (m0 !! i) as [v'|] eqn:Ei'; [|discriminate].
    injection Ei as ->.
    destruct (lift (fdiv v total)) as [q|e]; cbn [mbind result_bind] in Hrun;
      [|discriminate].
    rewrite (IH _ Hrun k).
    destruct (decide (k = i)) as [->|Hne].
    + rewrite lookup_insert_eq, Ei'. split; eauto.
    + by rewrite lookup_insert_ne.
Qed.

Lemma bt_round_keys wins players (scores s : gmap string F) (delta : F) :
  bt_round wins players scores = Ok (s, delta) ->
  forall k, is_Some (s !! k) <-> k ∈ players.
Proof.
  unfold bt_round. intros Hrun k.
  destruct (mm_update wins players scores) as [new|e] eqn:Hnew;
    simpl in Hrun; [|discriminate].
  destruct (values players new) as [vs|e]; simpl in Hrun; [|discriminate].
  destruct (fleb (fsum vs) f0); [discriminate|].
  destruct (normalize players (fsum vs) new) as [normed|e] eqn:Hnormed;
    simpl in Hrun; [|discriminate].
  destruct (max_delta players normed scores) as [d|e]; simpl in Hrun;
    [|discriminate].
  injection Hrun as <- <-.
  by rewrite (normalize_keys _ _ _ _ Hnormed k), (mm_update_keys _ _ _ _ Hnew k).
Qed.

Lemma bt_loop_keys wins players tol (n : nat) :
  forall s0 s : gmap string F,
    (forall k, is_Some (s0 !! k) <-> k ∈ players) ->
    bt_loop wins players tol n s0 = Ok s ->
    forall k, is_Some (s !! k) <-> k ∈ players.
Proof.
  induction n as [|n IH]; intros s0 s Hs0 Hrun; simpl in Hrun.
  - by injection Hrun as <-.
  - destruct (bt_round wins players s0) as [[s1 d]|e] eqn:Hround;
      simpl in Hrun; [|discriminate].
    pose proof (bt_round_keys _ _ _ _ _ Hround) as Hs1.
    destruct (fltb d tol).
    + by injection Hrun as <-.
    + by apply (IH s1).
Qed.
End FitterKeys.

(** X7: in any arithmetic, a strength vector the fitter returns has an entry
    for every key of the win matrix and for nothing else: no entity is
    dropped, whether it has wins or not, and none is invented. *)
Theorem bradley_terry_keys {F : Type} `{Arith F}
    (wins : gmap string (gmap string Z)) (max_iters : Z) (tol : F)
    (s : gmap string F) :
  bradley_terry wins max_iters tol = Ok s ->
  dom s = dom wins.
Proof.
  unfold bradley_terry. intros Hrun. apply set_eq. intros k.
  rewrite !elem_of_dom.
  assert (Hinit : forall k, is_Some (init_scores (sorted_keys wins) !! k)
                            <-> k ∈ sorted_keys wins).
  { intros k'. rewrite init_scores_lookup.
    destruct (decide _) as [Hin|Hnin];
      (split; [by intros [? ?] || eauto | done || eauto]). }
  rewrite (bt_loop_keys _ _ _ _ _ _ Hinit Hrun k).
  apply sorted_keys_elem.
Qed.

Lemma bradley_terry_keys_witness :
  exists s,
    bradley_terry lopsided_wins 10000 (1 # 10000000000)%Q = Ok s
    /\ dom s = dom lopsided_wins.
Proof.
  destruct (bradley_terry lopsided_wins 10000 (1 # 10000000000)%Q)
    as [s|e] eqn:Hrun.
  - exists s. split; [done|].
    exact (bradley_terry_keys lopsided_wins 10000 _ s Hrun).
  - exfalso. revert Hrun. vm_compute. discriminate.
Defined.

(** X8: with an iteration cap that is not positive the loop body never
    runs: in any arithmetic the fitter returns the starting vector, the
    score [1.0] for every key of the matrix, which is not normalised. *)
Theorem bradley_terry_no_pass {F : Type} `{Arith F}
    (wins : gmap string (gmap string Z)) (max_iters : Z) (tol : F) :
  max_iters <= 0 ->
  exists s,
    bradley_terry wins max_iters tol = Ok s
    /\ forall k, s !! k = if decide (k ∈ dom wins) then Some f1 else None.
Proof.
  intros Hcap. exists (init_scores (sorted_keys wins)). split.
  - unfold bradley_terry. by replace (Z.to_nat max_iters) with 0%nat by lia.
  - intros k. rewrite init_scores_lookup.
    destruct (decide (k ∈ sorted_keys wins)) as [Hin|Hnin];
      rewrite sorted_keys_elem, <- elem_of_dom in *.
    + by rewrite decide_True.
    + by rewrite decide_False.
Qed.

Lemma bradley_terry_no_pass_witness :
  exists s,
    bradley_terry lopsided_wins 0 (1 # 10000000000)%Q = Ok s
    /\ s !! "C" = Some 1%Q /\ s !! "D" = None.
Proof.
  destruct (bradley_terry_no_pass lopsided_wins 0 (1 # 10000000000)%Q
              ltac:(lia)) as (s & Hrun & Hs).
  exists s. split; [exact Hrun|]. rewrite !Hs.
  split; vm_compute; reflexivity.
Defined.

(** X9: on the empty matrix the first pass sums no score, and the sum 0 is
    not positive: in exact arithmetic the fitter raises its normalisation
    error whenever the iteration cap allows a pass, and returns the empty
    vector otherwise. *)
Theorem bradley_terry_empty (max_iters : Z) (tol : Q) :
  bradley_terry (∅ : gmap string (gmap string Z)) max_iters tol
  = if 0 <? max_iters then Raise FailedToNormalize else Ok ∅.
Proof.
  unfold bradley_terry.
  assert (Hkeys : sorted_keys (∅ : gmap string (gmap string Z)) = [])
    by (vm_compute; reflexivity).
  rewrite Hkeys. destruct (Z.ltb_spec 0 max_iters) as [Hpos|Hle].
  - destruct (Z.to_nat max_iters) as [|n] eqn:En; [lia|]. reflexivity.
  - by replace (Z.to_nat max_iters) with 0%nat by lia.
Qed.

(** ** The pipeline of [main] *)

Section Pipeline.
Context {F : Type} `{Arith F}.

Lemma load_results_valid (reader : list Row) :
  Forall (fun row => ~ malformed row) reader -> reader <> [] ->
  load_results reader = Ok (map outcome_of reader).
Proof.
  intros Hvalid Hne. rewrite load_results_read.
  rewrite (read_rows_valid reader [] Hvalid). simpl.
  by destruct reader.
Qed.

Lemma bradley_terry_players (wins : gmap string (gmap string Z))
    (max_iters : Z) (tol : F) (s : gmap string F) :
  bradley_terry wins max_iters tol = Ok s ->
  forall k, is_Some (s !! k) <-> k ∈ sorted_keys wins.
Proof.
  unfold bradley_terry. intros Hrun.
  assert (Hinit : forall k, is_Some (init_scores (sorted_keys wins) !! k)
                            <-> k ∈ sorted_keys wins).
  { intros k. rewrite init_scores_lookup.
    destruct (decide _) as [Hin|Hnin];
      (split; [by intros [? ?] || eauto | done || eauto]). }
  exact (bt_loop_keys _ _ _ _ _ _ Hinit Hrun).
Qed.

Lemma entries_elem (players : list string) (s : gmap string F) x v :
  (x, v) ∈ entries players s <-> x ∈ players /\ s !! x = Some v.
Proof.
  unfold entries. rewrite list_elem_of_omap. split.
  - intros (k & Hk & Hkv). destruct (s !! k) as [w|] eqn:Hw; [|done].
    simpl in Hkv. injection Hkv as <- <-. done.
  - intros [Hx Hv]. exists x. split; [done|]. by rewrite Hv.
Qed.

Lemma entries_names (players : list string) (s : gmap string F) :
  (forall k, k ∈ players -> is_Some (s !! k)) ->
  map fst (entries players s) = players.
Proof.
  unfold entries. induction players as [|k players IH]; intros Hs; [done|].
  destruct (Hs k) as [v Hv]; [by left|].
  cbn [omap list_omap]. rewrite Hv. simpl. f_equal.
  apply IH. intros k' Hk'. apply Hs. by right.
Qed.

Lemma rank_scores_names (l : list (string * F)) :
  map fst (rank_scores l) ≡ₚ map fst l.
Proof. unfold rank_scores. apply fmap_Permutation, sorted_perm. Qed.

End Pipeline.

(** X12: the stages of [main] fit together, in any arithmetic.  On rows that
    are all well formed, and at least one, ingestion returns; whenever the
    fitter then returns on the matrix built from the outcomes, the ranking
    lists each entity that is a side of some row exactly once, with the
    score the fitter gave it; and whenever the allocator returns on this
    ranking, whatever its parameters, it allocates to these entities and to
    no other. *)
Theorem ranking_pipeline (reader : list Row) :
  Forall (fun row => ~ malformed row) reader -> reader <> [] ->
  exists results,
    load_results reader = Ok results
    /\ forall (F : Type) (HF : Arith F) (max_iters : Z) (tol : F)
         (scores : gmap string F),
         bradley_terry (build_win_matrix results).1 max_iters tol
         = Ok scores ->
         let ranked :=
           rank_scores
             (entries (sorted_keys (build_win_matrix results).1) scores) in
         (forall x, x ∈ map fst ranked <-> participant results x)
         /\ NoDup (map fst ranked)
         /\ (forall x v, (x, v) ∈ ranked <-> scores !! x = Some v)
         /\ forall (HP : Pow F) alpha top_n max_fil min_fil budget_fil m,
              powerlaw_allocations ranked alpha top_n max_fil min_fil
                budget_fil = Ok m ->
              forall x, is_Some (m !! x) <-> participant results x.
Proof.
  intros Hvalid Hne. exists (map outcome_of reader).
  split; [by apply load_results_valid|].
  set (results := map outcome_of reader).
  set (wins := (build_win_matrix results).1).
  intros F HF max_iters tol scores Hfit ranked.
  set (players := sorted_keys wins).
  pose proof (sorted_keys_nodup wins) as Hnd.
  pose proof (sorted_keys_elem wins) as Hkeys.
  pose proof (bradley_terry_players wins max_iters tol scores Hfit) as Hdom.
  assert (Hnames : map fst ranked ≡ₚ players).
  { unfold ranked. rewrite rank_scores_names, entries_names; [done|].
    intros k Hk. by apply Hdom. }
  assert (Hmembers : forall x, x ∈ map fst ranked <-> participant results x).
  { intros x. rewrite Hnames. unfold players. rewrite Hkeys.
    destruct (build_win_matrix_built results) as [Hbuilt _ _ _ _ _].
    apply Hbuilt. }
  split; [exact Hmembers|]. split; [by rewrite Hnames|]. split.
  - intros x v. unfold ranked, rank_scores.
    rewrite (sorted_perm key_lt _), entries_elem.
    split; [by intros [_ ?]|]. intros Hv. split; [|done].
    apply Hdom. eauto.
  - intros HP alpha top_n max_fil min_fil budget_fil m Halloc x.
    rewrite (powerlaw_allocations_keys _ _ _ _ _ _ _ Halloc x).
    apply Hmembers.
Qed.

Lemma ranking_pipeline_witness :
  let reader :=
    [ {| project_a := "A"; project_b := "B";
         winner := Some "project_b"; winner_name := None |};
      {| project_a := " B "; project_b := "C";
         winner := None; winner_name := Some "B" |} ] in
  exists results scores,
    load_results reader = Ok results
    /\ bradley_terry (H := Binary64.arith Binary64.Compensated)
         (build_win_matrix results).1 MAX_ITERS Binary64.TOL = Ok scores
    /\ NoDup
         (map fst
            (rank_scores (H := Binary64.arith Binary64.Compensated)
               (entries (sorted_keys (build_win_matrix results).1) scores))).
Proof.
  intros reader.
  destruct (ranking_pipeline reader) as (results & Hload & Hrank).
  - repeat constructor; intros [Hbad|Hbad]; revert Hbad;
      unfold indicator_unrecognized, winner_outside_pair;
      vm_compute; intuition congruence.
  - discriminate.
  - assert (Hresults : results = [("A", "B", "B"); ("B", "C", "B")])
      by (vm_compute in Hload; by injection Hload as <-).
    destruct (bradley_terry (H := Binary64.arith Binary64.Compensated)
                (build_win_matrix results).1 MAX_ITERS Binary64.TOL)
      as [scores|e] eqn:Hfit.
    + exists results, scores. split; [exact Hload|]. split; [exact Hfit|].
      destruct (Hrank _ (Binary64.arith Binary64.Compensated) _ _ _ Hfit)
        as (_ & Hnd & _).
      exact Hnd.
    + exfalso. revert Hfit. rewrite Hresults. vm_compute. discriminate.
Defined.

(** * The pairing script *)

(** ** The rotation of the roster *)

Section Rotation.
Context {A : Type}.

(** The rotation of the tail, one step to the right. *)
Lemma rotate_tail_snoc (l : list A) (y : A) :
  (slice_from (-1) (l ++ [y]) ++ slice_to (-1) (l ++ [y]))%list = y :: l.
Proof.
  unfold slice_from, slice_to, slice_bound. simpl.
  rewrite length_app. simpl.
  replace (Z.to_nat (Z.of_nat (length l + 1) + -1)) with (length l) by lia.
  rewrite drop_app_length, take_app_length. done.
Qed.

Lemma rotate_roster_short (roster : list A) :
  (length roster <= 2)%nat -> Vote.rotate_roster roster = roster.
Proof.
  intros Hlen. unfold Vote.rotate_roster.
  by destruct (Nat.leb_spec (length roster) 2); [|lia].
Qed.

Lemma rotate_roster_long (first y : A) (l : list A) :
  l <> [] ->
  Vote.rotate_roster (first :: l ++ [y]) = first :: y :: l.
Proof.
  intros Hl. unfold Vote.rotate_roster.
  destruct (Nat.leb_spec (length (first :: l ++ [y])) 2) as [Hlen|_].
  - simpl in Hlen. rewrite length_app in Hlen. simpl in Hlen.
    destruct l; [done | simpl in Hlen; lia].
  - by rewrite rotate_tail_snoc.
Qed.

(** A roster is short, or has a first and a last element around a middle
    that is not empty. *)
Lemma roster_cases (roster : list A) :
  (length roster <= 2)%nat
  \/ exists first l y, l <> [] /\ roster = first :: l ++ [y].
Proof.
  destruct roster as [|first rest]; [left; simpl; lia|].
  destruct rest as [|x rest] using rev_ind; [left; simpl; lia|].
  clear IHrest. destruct rest as [|x' rest]; [left; simpl; lia|].
  right. exists first, (x' :: rest), x. done.
Qed.

Lemma rotate_tail_iter (l2 : list A) :
  forall l1,
    Nat.iter (length l2)
      (fun l => (slice_from (-1) l ++ slice_to (-1) l)%list) (l1 ++ l2)%list
    = (l2 ++ l1)%list.
Proof.
  induction l2 as [|y l2 IH] using rev_ind; intros l1.
  - simpl. by rewrite app_nil_r.
  - rewrite length_app. simpl.
    replace (length l2 + 1)%nat with (S (length l2)) by lia.
    rewrite Nat.iter_succ_r, app_assoc, rotate_tail_snoc.
    rewrite app_comm_cons, (IH (y :: l1)). by rewrite <- app_assoc.
Qed.

Lemma rotate_tail_length (l : list A) :
  length (slice_from (-1) l ++ slice_to (-1) l)%list = length l.
Proof.
  unfold slice_from, slice_to.
  by rewrite length_app, Nat.add_comm, <- length_app, take_drop.
Qed.

Lemma rotate_roster_iter (first : A) (rest : list A) (k : nat) :
  (2 <= length rest)%nat ->
  Nat.iter k Vote.rotate_roster (first :: rest)
  = first
    :: Nat.iter k (fun l => (slice_from (-1) l ++ slice_to (-1) l)%list) rest.
Proof.
  intros Hlen. induction k as [|k IH]; [done|].
  simpl. rewrite IH.
  set (l := Nat.iter k _ rest).
  assert (Hl : length l = length rest).
  { unfold l. clear IH l. induction k as [|k IHk]; [done|].
    simpl. by rewrite rotate_tail_length. }
  unfold Vote.rotate_roster.
  destruct (Nat.leb_spec (length (first :: l)) 2) as [Hshort|_]; [|done].
  simpl in Hshort. lia.
Qed.

Lemma rotate_roster_perm (roster : list A) :
  Vote.rotate_roster roster ≡ₚ roster.
Proof.
  destruct (roster_cases roster) as [Hshort|(first & l & y & Hl & ->)].
  - by rewrite (rotate_roster_short roster Hshort).
  - rewrite (rotate_roster_long first y l Hl).
    constructor. by rewrite Permutation_cons_append.
Qed.

Lemma rotate_roster_head (roster : list A) :
  Vote.rotate_roster roster !! 0%nat = roster !! 0%nat.
Proof.
  destruct (roster_cases roster) as [Hshort|(first & l & y & Hl & ->)].
  - by rewrite (rotate_roster_short roster Hshort).
  - by rewrite (rotate_roster_long first y l Hl).
Qed.
End Rotation.

(** X13: the rotation keeps the first element of the roster in place and
    moves the last one behind it; it rearranges the roster, losing and
    adding nothing, and leaves a roster of at most two elements as it
    is. *)
Theorem rotate_roster_spec {A : Type} (roster : list A) :
  Vote.rotate_roster roster ≡ₚ roster
  /\ Vote.rotate_roster roster !! 0%nat = roster !! 0%nat
  /\ ((length roster <= 2)%nat -> Vote.rotate_roster roster = roster)
  /\ (forall first l y,
        l <> [] -> roster = first :: l ++ [y] ->
        Vote.rotate_roster roster = first :: y :: l).
Proof.
  assert (Hlong : forall first l y,
            l <> [] -> roster = first :: l ++ [y] ->
            Vote.rotate_roster roster = first :: y :: l).
  { intros first l y Hl ->. by apply rotate_roster_long. }
  split; [apply rotate_roster_perm|]. split; [apply rotate_roster_head|].
  split; [apply rotate_roster_short | exact Hlong].
Qed.

(** X14: the rotation is a cycle of the elements after the first: applied
    as many times as there are such elements, it gives the roster back. *)
Theorem rotate_roster_period {A : Type} (roster : list A) :
  Nat.iter (length roster - 1) Vote.rotate_roster roster = roster.
Proof.
  destruct roster as [|first rest]; [done|].
  simpl. rewrite Nat.sub_0_r.
  destruct (Nat.le_gt_cases 2 (length rest)) as [Hlen|Hlen].
  - rewrite rotate_roster_iter by done. f_equal.
    pose proof (rotate_tail_iter rest []) as Hiter. simpl in Hiter.
    by rewrite app_nil_r in Hiter.
  - assert (Hshort : Vote.rotate_roster (first :: rest) = first :: rest)
      by (apply rotate_roster_short; simpl; lia).
    generalize (length rest). intros k.
    induction k as [|k IH]; [done|]. simpl. by rewrite IH.
Qed.

(** ** Loading the projects *)

Section Projects.
Context {Payload : Type} (project_name : Payload -> option string).

Lemma load_step_Done (projects : list (string * Payload)) (data : Payload)
    (projects' : list (string * Payload)) :
  Vote.load_step project_name projects data = Vote.Done projects'
  <-> exists name,
        Vote.named project_name (name, data)
        /\ (name ∉ map fst projects)
        /\ projects' = (projects ++ [(name, data)])%list.
Proof.
  unfold Vote.load_step, Vote.named. simpl. split.
  - destruct (project_name data) as [name|]; [|discriminate].
    destruct (String.eqb_spec name ""); [discriminate|].
    case_bool_decide; [discriminate|]. intros [= <-]. eauto.
  - intros (name & [-> Hname] & Hnew & ->).
    destruct (String.eqb_spec name ""); [done|].
    by rewrite bool_decide_eq_false_2.
Qed.

Lemma load_loop_Done (files : list Payload) :
  forall acc projects,
    Vote.each files (Vote.load_step project_name) acc = Vote.Done projects
    <-> exists added,
          projects = (acc ++ added)%list
          /\ map snd added = files
          /\ Forall (Vote.named project_name) added
          /\ NoDup (map fst added)
          /\ forall name, name ∈ map fst added -> name ∉ map fst acc.
Proof.
  induction files as [|data files IH]; intros acc projects; simpl.
  - split.
    + intros [= <-]. exists []. rewrite app_nil_r.
      repeat split; [constructor | constructor |].
      intros name Hin. by apply elem_of_nil in Hin.
    + intros (added & -> & Hadded & _).
      destruct added; [by rewrite app_nil_r | done].
  - split.
    + destruct (Vote.load_step project_name acc data) as [acc'|e] eqn:Hstep;
        simpl; [|discriminate].
      apply load_step_Done in Hstep as (name & Hnamed & Hnew & ->).
      intros Hrun. apply IH in Hrun
        as (added & -> & Hfiles & Hadded & Hnd & Hfresh).
      exists ((name, data) :: added). rewrite <- app_assoc. simpl.
      split; [done|]. split; [by rewrite Hfiles|]. split; [by constructor|].
      split.
      * constructor; [|done]. intros Hin.
        apply (Hfresh name Hin). rewrite map_app, elem_of_app. right.
        apply list_elem_of_here.
      * intros n [->|Hin]%elem_of_cons; [done|].
        intros Hacc. apply (Hfresh n Hin).
        rewrite map_app, elem_of_app. by left.
    + intros (added & -> & Hfiles & Hadded & Hnd & Hfresh).
      destruct added as [|[name data'] added]; [done|].
      simpl in Hfiles. injection Hfiles as -> Hfiles.
      apply Forall_cons in Hadded as [Hnamed Hadded].
      simpl in Hnd. apply NoDup_cons in Hnd as [Hname Hnd].
      assert (Hstep : Vote.load_step project_name acc data
                      = Vote.Done (acc ++ [(name, data)])%list).
      { apply load_step_Done. exists name. split; [done|]. split; [|done].
        apply Hfresh. simpl. apply list_elem_of_here. }
      rewrite Hstep. simpl. apply IH. exists added.
      rewrite <- app_assoc. simpl. split; [done|]. split; [done|].
      split; [done|]. split; [done|].
      intros n Hin. rewrite map_app, elem_of_app. simpl.
      rewrite list_elem_of_singleton. intros [Hacc| ->]; [|done].
      apply (Hfresh n); [|done]. simpl. by apply list_elem_of_further.
Qed.

Lemma load_loop_errors (files : list Payload) :
  forall acc e,
    Vote.each files (Vote.load_step project_name) acc = Vote.Throw e ->
    e = Vote.MissingProjectName \/ e = Vote.DuplicateProjectName.
Proof.
  induction files as [|data files IH]; intros acc e; simpl; [discriminate|].
  destruct (Vote.load_step project_name acc data) as [acc'|e'] eqn:Hstep;
    simpl; [apply IH|].
  intros [= <-]. unfold Vote.load_step in Hstep.
  destruct (project_name data) as [name|]; [|injection Hstep as <-; by left].
  destruct (String.eqb name ""); [injection Hstep as <-; by left|].
  case_bool_decide; [injection Hstep as <-; by right | discriminate].
Qed.
End Projects.

(** X15: [load_projects] returns exactly when every file has a name that is
    not empty, no two files have the same name and there are at least two
    files; it then returns the payloads under their names, in the order of
    the files.  In every other case it raises one of its three
    [ValueError]s. *)
Theorem load_projects_contract {Payload : Type}
    (project_name : Payload -> option string) (files : list Payload) :
  (forall projects,
     Vote.load_projects project_name files = Vote.Done projects
     <-> map snd projects = files
         /\ Forall (Vote.named project_name) projects
         /\ NoDup (map fst projects)
         /\ (2 <= length projects)%nat)
  /\ (forall e,
        Vote.load_projects project_name files = Vote.Throw e ->
        e = Vote.MissingProjectName \/ e = Vote.DuplicateProjectName
        \/ e = Vote.TooFewProjects).
Proof.
  unfold Vote.load_projects. split.
  - intros projects. split.
    + destruct (Vote.each files _ []) as [loaded|e] eqn:Hloop; simpl;
        [|discriminate].
      destruct (Nat.ltb_spec (length loaded) 2); [discriminate|].
      intros [= <-].
      apply load_loop_Done in Hloop as (added & -> & Hfiles & Hadded & Hnd & _).
      done.
    + intros (Hfiles & Hnamed & Hnd & Hlen).
      assert (Hloop : Vote.each files (Vote.load_step project_name) []
                      = Vote.Done projects).
      { apply load_loop_Done. exists projects. repeat split; try done.
        intros name _ Hin. by apply elem_of_nil in Hin. }
      rewrite Hloop. simpl.
      by destruct (Nat.ltb_spec (length projects) 2); [lia|].
  - intros e.
    destruct (Vote.each files _ []) as [loaded|e'] eqn:Hloop; simpl.
    + destruct (length loaded <? 2)%nat; [|discriminate].
      intros [= <-]. by right; right.
    + intros [= <-]. apply load_loop_errors in Hloop. tauto.
Qed.

(** ** Pairing *)

Section Tally.

Lemma fold_min_spec (cs : list Z) :
  forall c,
    fold_left Z.min cs c ∈ c :: cs
    /\ forall d, d ∈ c :: cs -> fold_left Z.min cs c <= d.
Proof.
  induction cs as [|c' cs IH]; intros c; simpl.
  - split; [apply list_elem_of_here|].
    intros d Hd. apply list_elem_of_singleton in Hd. lia.
  - destruct (IH (Z.min c c')) as [Hin Hle]. split.
    + apply elem_of_cons in Hin as [->|Hin].
      * destruct (Z.min_spec c c') as [[_ ->]|[_ ->]].
        -- apply list_elem_of_here.
        -- apply list_elem_of_further, list_elem_of_here.
      * by do 2 apply list_elem_of_further.
    + intros d Hd.
      assert (Hm : fold_left Z.min cs (Z.min c c') <= Z.min c c')
        by apply Hle, list_elem_of_here.
      apply elem_of_cons in Hd as [->|Hd]; [lia|].
      apply elem_of_cons in Hd as [->|Hd]; [lia|].
      by apply Hle, list_elem_of_further.
Qed.

Lemma min_count_spec (counts : gmap string Z) :
  (counts = ∅ /\ Vote.min_count counts = Vote.Throw Vote.EmptyMin)
  \/ exists least,
       Vote.min_count counts = Vote.Done least
       /\ (exists x, counts !! x = Some least)
       /\ forall x c, counts !! x = Some c -> least <= c.
Proof.
  unfold Vote.min_count.
  destruct (map_to_list counts) as [|[x c] rest] eqn:Hlist.
  - left. by apply map_to_list_empty_iff in Hlist.
  - right. simpl. destruct (fold_min_spec rest.*2 c) as [Hin Hle].
    exists (fold_left Z.min rest.*2 c). split; [done|].
    assert (Hvalues : forall d, d ∈ c :: rest.*2
                                <-> exists y, counts !! y = Some d).
    { intros d. change (c :: rest.*2) with (((x, c) :: rest).*2).
      rewrite <- Hlist. rewrite list_elem_of_fmap. split.
      - intros ([y d'] & -> & Hy). exists y.
        by apply elem_of_map_to_list in Hy.
      - intros (y & Hy). exists (y, d). split; [done|].
        by apply elem_of_map_to_list. }
    split; [by apply Hvalues|].
    intros y d Hy. apply Hle, Hvalues. eauto.
Qed.

Lemma appearances_snoc (x : string) (l : list (string * string))
    (p : string * string) :
  Vote.appearances x (l ++ [p])
  = Vote.appearances x l
    + (if String.eqb p.1 x then 1 else 0)
    + (if String.eqb p.2 x then 1 else 0).
Proof.
  unfold Vote.appearances. rewrite !List.filter_app, !length_app. simpl.
  destruct (String.eqb p.1 x), (String.eqb p.2 x); simpl; lia.
Qed.

Lemma appearances_nonneg (x : string) (l : list (string * string)) :
  0 <= Vote.appearances x l.
Proof. unfold Vote.appearances. lia. Qed.

Lemma counts_init_lookup (roster : list (option string)) (x : string) :
  Vote.counts_init roster !! x
  = if decide (Some x ∈ roster) then Some 0 else None.
Proof.
  unfold Vote.counts_init.
  assert (Hgen : forall m0 : gmap string Z,
            fold_left
              (fun m slot =>
                 match slot with Some name => <[name := 0]> m | None => m end)
              roster m0 !! x
            = if decide (Some x ∈ roster) then Some 0 else m0 !! x).
  { induction roster as [|slot roster IH]; intros m0; cbn [fold_left].
    - rewrite decide_False; [done | apply not_elem_of_nil].
    - rewrite IH. destruct (decide (Some x ∈ roster)) as [Hin|Hnin].
      + rewrite decide_True; [done | by apply elem_of_cons; right].
      + destruct (decide (slot = Some x)) as [->|Hne].
        * rewrite decide_True by (apply elem_of_cons; by left).
          apply lookup_insert_eq.
        * rewrite decide_False
            by (intros [?|?]%elem_of_cons; [congruence | done]).
          destruct slot as [name|]; [|done].
          apply lookup_insert_ne. congruence. }
  by rewrite Hgen, lookup_empty.
Qed.

Lemma names_of_elem (roster : list (option string)) (x : string) :
  x ∈ Vote.names_of roster <-> Some x ∈ roster.
Proof.
  unfold Vote.names_of. rewrite list_elem_of_omap. split.
  - intros ([y|] & Hin & [= <-]). done.
  - intros Hin. by exists (Some x).
Qed.
End Tally.

Section PairingSteps.
Context {G : Type} `{Vote.Rng G}.

Lemma incr_Done (name : string) (counts : gmap string Z) (c : Z) :
  counts !! name = Some c ->
  Vote.incr name counts = Vote.Done (<[name := c + 1]> counts).
Proof. unfold Vote.incr. by intros ->. Qed.

(** A pair of names added to the pairs and counted. *)
Lemma tally_pair (names : list string) (st : Vote.state G) (l r : string) (g : G) :
  Vote.tallied names st -> l ∈ names -> r ∈ names ->
  exists counts1 counts2,
    Vote.incr l (Vote.counts st) = Vote.Done counts1
    /\ Vote.incr r counts1 = Vote.Done counts2
    /\ Vote.tallied names
         {| Vote.pairs := (Vote.pairs st ++ [(l, r)])%list;
            Vote.counts := counts2; Vote.rng := g |}.
Proof.
  intros [Hkeys Hvalues] Hl Hr.
  destruct (proj2 (Hkeys l) Hl) as [c1 Hc1].
  exists (<[l := c1 + 1]> (Vote.counts st)).
  assert (Hr1 : exists c2, <[l := c1 + 1]> (Vote.counts st) !! r = Some c2).
  { destruct (decide (l = r)) as [->|Hne].
    - rewrite lookup_insert_eq. eauto.
    - rewrite lookup_insert_ne by done. apply Hkeys, Hr. }
  destruct Hr1 as [c2 Hc2].
  exists (<[r := c2 + 1]> (<[l := c1 + 1]> (Vote.counts st))).
  split; [by apply incr_Done|]. split; [by apply incr_Done|]. split; simpl.
  - intros x. rewrite <- Hkeys.
    destruct (decide (r = x)) as [->|Hrx].
    + rewrite lookup_insert_eq. split; [intros _; by apply Hkeys | eauto].
    + rewrite lookup_insert_ne by done.
      destruct (decide (l = x)) as [->|Hlx].
      * rewrite lookup_insert_eq. split; [intros _; by apply Hkeys | eauto].
      * by rewrite lookup_insert_ne.
  - intros x c. rewrite appearances_snoc. simpl.
    destruct (String.eqb_spec r x) as [->|Hrx].
    + rewrite lookup_insert_eq. intros [= <-].
      destruct (String.eqb_spec l x) as [->|Hlx].
      * rewrite lookup_insert_eq in Hc2. injection Hc2 as <-.
        rewrite (Hvalues x c1 Hc1). lia.
      * rewrite lookup_insert_ne in Hc2 by done.
        rewrite (Hvalues x c2 Hc2). lia.
    + rewrite lookup_insert_ne by done.
      destruct (String.eqb_spec l x) as [->|Hlx].
      * rewrite lookup_insert_eq. intros [= <-].
        rewrite (Hvalues x c1 Hc1). lia.
      * rewrite lookup_insert_ne by done. intros Hc.
        rewrite (Hvalues x c Hc). lia.
Qed.

Lemma pair_step_tallied (names : list string) (st : Vote.state G)
    (slots : option string * option string) :
  Vote.tallied names st ->
  (forall l r, slots = (Some l, Some r) -> l ∈ names /\ r ∈ names) ->
  exists st',
    Vote.pair_step st slots = Vote.Done st'
    /\ Vote.tallied names st'
    /\ (forall x,
          Vote.appearances x (Vote.pairs st')
          = Vote.appearances x (Vote.pairs st) + Vote.plays x slots)
    /\ forall p,
         p ∈ Vote.pairs st' ->
         p ∈ Vote.pairs st \/ slots = (Some p.1, Some p.2)
         \/ slots = (Some p.2, Some p.1).
Proof.
  intros Htally Hslots. unfold Vote.pair_step.
  destruct slots as [[l|] [r|]];
    try (exists st; split; [done|]; split; [done|]; split;
         [intros x; simpl; lia | intros p Hp; by left]).
  destruct (Hslots l r eq_refl) as [Hl Hr].
  destruct (Vote.coin (Vote.rng st)) as [swap g].
  destruct swap; cbv beta iota.
  - destruct (tally_pair names st r l g Htally Hr Hl)
      as (c1 & c2 & -> & Hc2 & Htally').
    simpl. rewrite Hc2. simpl.
    eexists. split; [done|]. split; [exact Htally'|]. simpl. split.
    + intros x. rewrite appearances_snoc. simpl. lia.
    + intros p [Hp| ->%list_elem_of_singleton]%elem_of_app; [by left|].
      right. by right.
  - destruct (tally_pair names st l r g Htally Hl Hr)
      as (c1 & c2 & -> & Hc2 & Htally').
    simpl. rewrite Hc2. simpl.
    eexists. split; [done|]. split; [exact Htally'|]. simpl. split.
    + intros x. rewrite appearances_snoc. simpl. lia.
    + intros p [Hp| ->%list_elem_of_singleton]%elem_of_app; [by left|].
      right. by left.
Qed.

Lemma each_pair_step (names : list string)
    (zs : list (option string * option string)) :
  forall st,
    Vote.tallied names st ->
    (forall l r, (Some l, Some r) ∈ zs -> l ∈ names /\ r ∈ names) ->
    exists st',
      Vote.each zs Vote.pair_step st = Vote.Done st'
      /\ Vote.tallied names st'
      /\ (forall x,
            Vote.appearances x (Vote.pairs st')
            = Vote.appearances x (Vote.pairs st) + Vote.occurrences x zs)
      /\ forall p,
           p ∈ Vote.pairs st' ->
           p ∈ Vote.pairs st \/ (Some p.1, Some p.2) ∈ zs
           \/ (Some p.2, Some p.1) ∈ zs.
Proof.
  induction zs as [|slots zs IH]; intros st Htally Hzs; simpl.
  - exists st. split; [done|]. split; [done|]. split; [intros; lia | eauto].
  - destruct (pair_step_tallied names st slots Htally)
      as (st1 & -> & Htally1 & Hcount1 & Hpairs1).
    { intros l r ->. apply Hzs, list_elem_of_here. }
    simpl. destruct (IH st1 Htally1) as (st' & -> & Htally' & Hcount' & Hpairs').
    { intros l r Hin. by apply Hzs, list_elem_of_further. }
    exists st'. split; [done|]. split; [done|]. split.
    + intros x. rewrite Hcount', Hcount1. lia.
    + intros p Hp. destruct (Hpairs' p Hp) as [Hp1|[Hin|Hin]].
      * destruct (Hpairs1 p Hp1) as [?|[->| ->]]; [by left| |].
        -- right. left. apply list_elem_of_here.
        -- right. right. apply list_elem_of_here.
      * right. left. by apply list_elem_of_further.
      * right. right. by apply list_elem_of_further.
Qed.
End PairingSteps.

Section Facing.

(** [zip(first_half, second_half)] pairs the slot [i] of the first half with
    the slot [len(roster) - 1 - i]. *)
Lemma facing_lookup (roster : list (option string)) a b :
  (a, b) ∈ Vote.facing roster
  <-> exists i : nat,
        (i < length roster / 2)%nat
        /\ roster !! i = Some a
        /\ roster !! (length roster - 1 - i)%nat = Some b.
Proof.
  unfold Vote.facing. set (h := (length roster / 2)%nat).
  assert (Hh : (2 * h <= length roster)%nat)
    by (unfold h; apply Nat.Div0.mul_div_le).
  rewrite list_elem_of_lookup. split.
  - intros (i & Hi). apply lookup_zip_Some in Hi as [Ha Hb].
    apply lookup_take_Some in Ha as [Ha Hi].
    apply reverse_lookup_Some in Hb as [Hb Hlen].
    rewrite length_drop in Hb, Hlen. rewrite lookup_drop in Hb.
    exists i. split; [done|]. split; [done|].
    by replace (length roster - 1 - i)%nat
      with (h + (length roster - h - S i))%nat by lia.
  - intros (i & Hi & Ha & Hb). exists i. apply lookup_zip_Some. split.
    + by apply lookup_take_Some.
    + apply reverse_lookup_Some. rewrite length_drop, lookup_drop.
      split; [|lia].
      by replace (h + (length roster - h - S i))%nat
        with (length roster - 1 - i)%nat by lia.
Qed.

Lemma facing_members (roster : list (option string)) a b :
  (a, b) ∈ Vote.facing roster -> a ∈ roster /\ b ∈ roster.
Proof.
  intros (i & _ & Ha & Hb)%facing_lookup.
  split; apply list_elem_of_lookup; eauto.
Qed.

Lemma facing_distinct (roster : list (option string)) a b :
  NoDup roster -> (a, b) ∈ Vote.facing roster -> a <> b.
Proof.
  intros Hnd (i & Hi & Ha & Hb)%facing_lookup ->.
  pose proof (NoDup_lookup _ _ _ _ Hnd Ha Hb) as Heq.
  assert (Hh : (2 * (length roster / 2) <= length roster)%nat)
    by apply Nat.Div0.mul_div_le.
  lia.
Qed.

Lemma facing_mirrored (roster : list (option string)) a b :
  (a, b) ∈ Vote.facing roster -> Vote.mirrored roster a b.
Proof.
  intros (i & Hi & Ha & Hb)%facing_lookup.
  exists i, (length roster - 1 - i)%nat. split; [|done].
  assert (Hh : (2 * (length roster / 2) <= length roster)%nat)
    by apply Nat.Div0.mul_div_le.
  lia.
Qed.
End Facing.

Section PairingLoop.
Context {G : Type} `{Vote.Rng G}.
Context (roster0 : list (option string)) (min_appearances max_rounds : Z).

(** What holds of a pair once made: both sides are on the roster, and they
    differ when no name is on the roster twice. *)
Let sound (p : string * string) : Prop :=
  Some p.1 ∈ roster0 /\ Some p.2 ∈ roster0 /\ (NoDup roster0 -> p.1 <> p.2).

Lemma rounds_sound (fuel : nat) :
  forall (k : Z) (roster : list (option string)) (st : Vote.state G),
    roster ≡ₚ roster0 ->
    Vote.tallied (Vote.names_of roster0) st ->
    (forall p, p ∈ Vote.pairs st -> sound p) ->
    Z.max max_rounds 0 + 1 <= Z.of_nat fuel + k ->
    k <= Z.max max_rounds 0 ->
    match Vote.rounds fuel min_appearances max_rounds k roster st with
    | Vote.Done pairs =>
        (forall x, Some x ∈ roster0 ->
                   min_appearances <= Vote.appearances x pairs)
        /\ forall p, p ∈ pairs -> sound p
    | Vote.Throw e =>
        (e = Vote.EmptyMin /\ forall x, Some x ∉ roster0)
        \/ e = Vote.PairingUnsatisfied
    end.
Proof.
  induction fuel as [|fuel IH]; intros k roster st Hperm Htally Hpairs Hfuel Hk;
    [lia|].
  simpl. destruct Htally as [Hkeys Hvalues].
  destruct (min_count_spec (Vote.counts st))
    as [[Hempty ->]|(least & -> & Hleast & Hmin)]; simpl.
  { left. split; [done|]. intros x Hx. apply names_of_elem, Hkeys in Hx.
    rewrite Hempty, lookup_empty in Hx. by destruct Hx. }
  destruct (Z.ltb_spec least min_appearances) as [Hlt|Hge].
  - destruct (each_pair_step (Vote.names_of roster0) (Vote.facing roster) st)
      as (st' & -> & Htally' & _ & Hpairs'); [done| |].
    { intros l r [Hl Hr]%facing_members.
      rewrite !names_of_elem, <- Hperm. done. }
    simpl. destruct (Z.ltb_spec max_rounds (k + 1)) as [?|Hround];
      [by right|].
    apply IH; [|done| |lia|lia].
    + by rewrite rotate_roster_perm.
    + intros p Hp. destruct (Hpairs' p Hp) as [Hold|Hnew]; [by apply Hpairs|].
      assert (Hfacing : exists a b,
                (a, b) ∈ Vote.facing roster
                /\ ((a = Some p.1 /\ b = Some p.2)
                    \/ (a = Some p.2 /\ b = Some p.1))).
      { destruct Hnew as [Hin|Hin]; eauto 8. }
      destruct Hfacing as (a & b & Hin & Hab).
      destruct (facing_members roster a b Hin) as [Ha Hb].
      rewrite Hperm in Ha, Hb.
      assert (Hdiff : NoDup roster0 -> a <> b).
      { intros Hnd. apply (facing_distinct roster); [by rewrite Hperm | done]. }
      destruct Hab as [[-> ->]|[-> ->]]; (split; [done|]; split; [done|]);
        intros Hnd Heq; apply (Hdiff Hnd); by rewrite Heq.
  - split; [|done]. intros x Hx.
    destruct (proj2 (Hkeys x)) as [c Hc]; [by apply names_of_elem|].
    rewrite <- (Hvalues x c Hc). pose proof (Hmin x c Hc). lia.
Qed.
End PairingLoop.

Section PairingStart.
Context {G : Type} `{Vote.Rng G}.
Hypothesis fair : Vote.fair_shuffle G.

(** The state in which [generate_pairs] enters its loop. *)
Lemma generate_pairs_start (projects : list string)
    (min_appearances seed : Z) :
  exists (roster0 : list (option string)) (g : G),
    Vote.generate_pairs projects min_appearances seed
    = Vote.rounds
        (Z.to_nat ((min_appearances + 1) * Z.of_nat (length roster0)) + 1)
        min_appearances ((min_appearances + 1) * Z.of_nat (length roster0))
        0 roster0
        {| Vote.pairs := []; Vote.counts := Vote.counts_init roster0;
           Vote.rng := g |}
    /\ (forall x, Some x ∈ roster0 <-> x ∈ projects)
    /\ (NoDup projects -> NoDup roster0)
    /\ (length roster0 mod 2 = 0)%nat
    /\ (length projects <= length roster0)%nat
    /\ (None ∈ roster0 -> length roster0 = S (length projects))
    /\ (projects <> [] -> roster0 !! 0%nat <> Some None).
Proof.
  unfold Vote.generate_pairs.
  pose proof (fair _ (Vote.seeded seed) (map Some projects)) as Hperm.
  destruct (Vote.shuffle _ (Vote.seeded seed) (map Some projects))
    as [shuffled g]. simpl in Hperm.
  exists (Vote.padded shuffled), g. split; [done|].
  assert (Hlen : length shuffled = length projects)
    by (by rewrite Hperm, length_map).
  assert (Hsome : forall slot, slot ∈ shuffled
                               <-> exists x, slot = Some x /\ x ∈ projects).
  { intros slot. rewrite Hperm, list_elem_of_fmap. done. }
  assert (Hnone : None ∉ shuffled).
  { intros Hin. apply Hsome in Hin as (x & Hx & _). done. }
  assert (Hhead : projects <> [] -> shuffled !! 0%nat <> Some None).
  { intros Hne Hhead. apply Hnone. apply list_elem_of_lookup. eauto. }
  unfold Vote.padded.
  destruct (Nat.eqb_spec (length shuffled mod 2) 1) as [Hodd|Heven].
  - split; [|split; [|split; [|split; [|split]]]].
    + intros x. rewrite elem_of_app, list_elem_of_singleton, Hsome.
      split; [intros [(y & [= ->] & Hy)|?]; done|]. intros Hx. left. eauto.
    + intros Hnd. apply NoDup_app. split; [|split].
      * rewrite Hperm. apply NoDup_fmap; [|done]. by intros x y [= ->].
      * intros slot Hin ->%list_elem_of_singleton. done.
      * apply NoDup_singleton.
    + rewrite length_app. change (length [None (A:=string)]) with 1%nat.
      by rewrite Nat.Div0.add_mod, Hodd.
    + rewrite length_app. lia.
    + intros _. rewrite length_app. simpl. lia.
    + intros Hne. rewrite lookup_app_l; [by apply Hhead|].
      rewrite Hlen. destruct projects; [done | simpl; lia].
  - split; [|split; [|split; [|split; [|split]]]].
    + intros x. rewrite Hsome. split; [by intros (y & [= ->] & Hy) | eauto].
    + intros Hnd. rewrite Hperm. apply NoDup_fmap; [|done].
      by intros x y [= ->].
    + pose proof (Nat.mod_upper_bound (length shuffled) 2). lia.
    + lia.
    + done.
    + done.
Qed.

Lemma counts_init_tallied (roster0 : list (option string)) (g : G) :
  Vote.tallied (Vote.names_of roster0)
    {| Vote.pairs := []; Vote.counts := Vote.counts_init roster0;
       Vote.rng := g |}.
Proof.
  split; simpl.
  - intros x. rewrite counts_init_lookup, names_of_elem.
    destruct (decide (Some x ∈ roster0)) as [Hin|Hnin];
      (split; [by intros [? ?] || eauto | done || eauto]).
  - intros x c. rewrite counts_init_lookup.
    destruct (decide (Some x ∈ roster0)); [|done]. by intros [= <-].
Qed.
End PairingStart.

(** X16: with a generator whose shuffle rearranges, the pairs that
    [generate_pairs] returns give every project at least [min_appearances]
    appearances; both sides of every pair are projects of the input, and
    they are two different projects when the input names no project
    twice. *)
Theorem generate_pairs_post {G : Type} `{Vote.Rng G}
    (projects : list string) (min_appearances seed : Z)
    (pairs : list (string * string)) :
  Vote.fair_shuffle G ->
  Vote.generate_pairs projects min_appearances seed = Vote.Done pairs ->
  (forall x, x ∈ projects -> min_appearances <= Vote.appearances x pairs)
  /\ (forall l r, (l, r) ∈ pairs -> l ∈ projects /\ r ∈ projects)
  /\ (NoDup projects -> forall l r, (l, r) ∈ pairs -> l <> r).
Proof.
  intros fair Hrun.
  destruct (generate_pairs_start fair projects min_appearances seed)
    as (roster0 & g & Hstart & Hmembers & Hnd & _).
  rewrite Hstart in Hrun.
  set (max_rounds := (min_appearances + 1) * Z.of_nat (length roster0)) in *.
  pose proof (rounds_sound roster0 min_appearances max_rounds
                (Z.to_nat max_rounds + 1) 0 roster0 _ (reflexivity _)
                (counts_init_tallied roster0 g)) as Hsound.
  rewrite Hrun in Hsound. destruct Hsound as [Hcount Hpairs]; [|lia|lia|].
  { intros p Hp. by apply elem_of_nil in Hp. }
  split; [|split].
  - intros x Hx. by apply Hcount, Hmembers.
  - intros l r Hin. destruct (Hpairs _ Hin) as (Hl & Hr & _).
    by rewrite <- !Hmembers.
  - intros Hprojects l r Hin. destruct (Hpairs _ Hin) as (_ & _ & Hdiff).
    by apply Hdiff, Hnd.
Qed.

Lemma generate_pairs_post_witness :
  Vote.fair_shuffle Z
  /\ exists pairs,
       Vote.generate_pairs ["a"; "b"; "c"] 2 100 = Vote.Done pairs
       /\ 2 <= Vote.appearances "c" pairs.
Proof.
  assert (fair : Vote.fair_shuffle Z).
  { intros A g l. simpl. by rewrite reverse_Permutation. }
  split; [exact fair|].
  destruct (Vote.generate_pairs ["a"; "b"; "c"] 2 100) as [pairs|e] eqn:Hrun.
  - exists pairs. split; [done|].
    destruct (generate_pairs_post ["a"; "b"; "c"] 2 100 pairs fair Hrun)
      as [Hcount _].
    apply Hcount. do 2 apply list_elem_of_further. apply list_elem_of_here.
  - exfalso. revert Hrun. vm_compute. discriminate.
Defined.

Section PairingEdges.
Context {G : Type} `{Vote.Rng G}.

Lemma counts_init_empty (roster0 : list (option string)) :
  (forall x, Some x ∉ roster0) -> Vote.counts_init roster0 = ∅.
Proof.
  intros Hnone. apply map_empty. intros x. rewrite counts_init_lookup.
  destruct (decide (Some x ∈ roster0)) as [Hin|_]; [|done].
  by destruct (Hnone x).
Qed.

Lemma min_count_init (roster0 : list (option string)) (x : string) :
  Some x ∈ roster0 ->
  Vote.min_count (Vote.counts_init roster0) = Vote.Done 0.
Proof.
  intros Hx.
  destruct (min_count_spec (Vote.counts_init roster0))
    as [[Hempty _]|(least & -> & (y & Hy) & _)].
  - assert (Hlook : Vote.counts_init roster0 !! x = Some 0)
      by (rewrite counts_init_lookup; by rewrite decide_True).
    by rewrite Hempty, lookup_empty in Hlook.
  - rewrite counts_init_lookup in Hy.
    destruct (decide (Some y ∈ roster0)); [|done]. by injection Hy as <-.
Qed.

(** One project and its bye: no round makes a pair. *)
Lemma lone_project_loop (p : string) (g : G) (min_appearances max_rounds : Z)
    (fuel : nat) :
  0 < min_appearances ->
  forall k,
    max_rounds + 1 <= Z.of_nat fuel + k -> k <= max_rounds ->
    Vote.rounds fuel min_appearances max_rounds k [Some p; None]
      {| Vote.pairs := []; Vote.counts := {[ p := 0 ]}; Vote.rng := g |}
    = Vote.Throw Vote.PairingUnsatisfied.
Proof.
  intros Hmin. induction fuel as [|fuel IH]; intros k Hfuel Hk; [lia|].
  simpl. unfold Vote.min_count. rewrite map_to_list_singleton. simpl.
  destruct (Z.ltb_spec 0 min_appearances) as [_|?]; [|lia].
  destruct (Z.ltb_spec max_rounds (k + 1)) as [?|Hround]; [done|].
  apply IH; lia.
Qed.
End PairingEdges.

(** X17: with a generator whose shuffle rearranges, [generate_pairs] raises
    nothing but the [ValueError] of [min] on an empty sequence, which it
    raises exactly when there is no project at all, and its own
    [RuntimeError]: no count is ever missing for a name it pairs, and the
    loop is left within the rounds the model allows. *)
Theorem generate_pairs_errors {G : Type} `{Vote.Rng G}
    (projects : list string) (min_appearances seed : Z) :
  Vote.fair_shuffle G ->
  (projects = [] ->
   Vote.generate_pairs projects min_appearances seed
   = Vote.Throw Vote.EmptyMin)
  /\ forall e,
       Vote.generate_pairs projects min_appearances seed = Vote.Throw e ->
       (e = Vote.EmptyMin /\ projects = []) \/ e = Vote.PairingUnsatisfied.
Proof.
  intros fair.
  destruct (generate_pairs_start fair projects min_appearances seed)
    as (roster0 & g & -> & Hmembers & _).
  set (max_rounds := (min_appearances + 1) * Z.of_nat (length roster0)).
  split.
  - intros ->. replace (Z.to_nat max_rounds + 1)%nat
      with (S (Z.to_nat max_rounds)) by lia.
    simpl. rewrite counts_init_empty; [done|].
    intros x Hx. apply Hmembers in Hx. by apply elem_of_nil in Hx.
  - intros e Hrun.
    pose proof (rounds_sound roster0 min_appearances max_rounds
                  (Z.to_nat max_rounds + 1) 0 roster0 _ (reflexivity _)
                  (counts_init_tallied roster0 g)) as Hsound.
    rewrite Hrun in Hsound.
    destruct Hsound as [[-> Hnone]| ->]; [| lia | lia | | by right].
    { intros p Hp. by apply elem_of_nil in Hp. }
    left. split; [done|]. destruct projects as [|x projects]; [done|].
    destruct (Hnone x). apply Hmembers, list_elem_of_here.
Qed.

Lemma generate_pairs_errors_witness :
  Vote.fair_shuffle Z
  /\ Vote.generate_pairs [] 10 100 = Vote.Throw Vote.EmptyMin.
Proof.
  assert (fair : Vote.fair_shuffle Z).
  { intros A g l. simpl. by rewrite reverse_Permutation. }
  split; [exact fair|].
  by apply (generate_pairs_errors [] 10 100 fair).
Defined.

(** X18: two edges of [generate_pairs], with a generator whose shuffle
    rearranges.  When no appearance is asked for
    ([min_appearances <= 0]), and there is a project, no round is played
    and no pair returned.  A lone project, of which an appearance is asked
    for, meets only its bye: [generate_pairs] gives up with its
    [RuntimeError]. *)
Theorem generate_pairs_edges {G : Type} `{Vote.Rng G}
    (projects : list string) (min_appearances seed : Z) :
  Vote.fair_shuffle G ->
  (projects <> [] -> min_appearances <= 0 ->
   Vote.generate_pairs projects min_appearances seed = Vote.Done [])
  /\ (forall p, projects = [p] -> 0 < min_appearances ->
        Vote.generate_pairs projects min_appearances seed
        = Vote.Throw Vote.PairingUnsatisfied).
Proof.
  intros fair. split.
  - intros Hne Hmin.
    destruct (generate_pairs_start fair projects min_appearances seed)
      as (roster0 & g & -> & Hmembers & _).
    destruct projects as [|x projects]; [done|].
    replace (Z.to_nat ((min_appearances + 1) * Z.of_nat (length roster0)) + 1)%nat
      with (S (Z.to_nat ((min_appearances + 1) * Z.of_nat (length roster0))))
      by lia.
    simpl. rewrite (min_count_init roster0 x)
      by apply Hmembers, list_elem_of_here.
    simpl. by destruct (Z.ltb_spec 0 min_appearances); [lia|].
  - intros p -> Hmin. unfold Vote.generate_pairs.
    pose proof (fair _ (Vote.seeded seed) (map Some [p])) as Hperm.
    destruct (Vote.shuffle _ (Vote.seeded seed) (map Some [p]))
      as [shuffled g]. simpl in Hperm.
    apply Permutation_singleton_r in Hperm as ->.
    apply lone_project_loop; simpl; lia.
Qed.

Lemma generate_pairs_edges_witness :
  Vote.fair_shuffle Z
  /\ Vote.generate_pairs ["a"; "b"] 0 100 = Vote.Done []
  /\ Vote.generate_pairs ["a"] 10 100 = Vote.Throw Vote.PairingUnsatisfied.
Proof.
  assert (fair : Vote.fair_shuffle Z).
  { intros A g l. simpl. by rewrite reverse_Permutation. }
  split; [exact fair|].
  destruct (generate_pairs_edges ["a"; "b"] 0 100 fair) as [Hnone _].
  destruct (generate_pairs_edges ["a"] 10 100 fair) as [_ Hlone].
  split; [by apply Hnone | by apply (Hlone "a")].
Defined.

(** ** Every project gets to play *)

Section Mirror.

Lemma mirror_exists (roster : list (option string)) (i : nat) a :
  roster !! i = Some a -> exists b, Vote.mirrored roster a b.
Proof.
  intros Ha. pose proof (lookup_lt_Some _ _ _ Ha) as Hi.
  destruct (lookup_lt_is_Some_2 roster (length roster - 1 - i)%nat) as [b Hb];
    [lia|].
  exists b, i, (length roster - 1 - i)%nat. split; [lia | done].
Qed.

Lemma mirrored_facing (roster : list (option string)) a b :
  (length roster mod 2 = 0)%nat ->
  Vote.mirrored roster a b ->
  (a, b) ∈ Vote.facing roster \/ (b, a) ∈ Vote.facing roster.
Proof.
  intros Heven (i & j & Hij & Ha & Hb).
  pose proof (Nat.div_mod_eq (length roster) 2) as Hdiv.
  destruct (Nat.lt_ge_cases i j) as [Hlt|Hge].
  - left. apply facing_lookup. exists i. split; [lia|]. split; [done|].
    by replace (length roster - 1 - i)%nat with j by lia.
  - right. apply facing_lookup. exists j. split; [lia|]. split; [done|].
    by replace (length roster - 1 - j)%nat with i by lia.
Qed.

Lemma plays_nonneg (x : string) slots : 0 <= Vote.plays x slots.
Proof.
  unfold Vote.plays. destruct slots as [[l|] [r|]]; try lia.
  destruct (String.eqb l x), (String.eqb r x); lia.
Qed.

Lemma occurrences_nonneg (x : string) zs : 0 <= Vote.occurrences x zs.
Proof.
  induction zs as [|slots zs IH]; simpl; [lia|].
  pose proof (plays_nonneg x slots). lia.
Qed.

Lemma occurrences_pos (x : string) zs (l r : string) :
  (Some l, Some r) ∈ zs -> l = x \/ r = x -> 1 <= Vote.occurrences x zs.
Proof.
  intros Hin Hx. induction zs as [|slots zs IH]; simpl.
  - by apply elem_of_nil in Hin.
  - pose proof (plays_nonneg x slots). pose proof (occurrences_nonneg x zs).
    apply elem_of_cons in Hin as [<-|Hin]; [|specialize (IH Hin); lia].
    simpl. destruct Hx as [->| ->]; rewrite String.eqb_refl;
      [destruct (String.eqb r x) | destruct (String.eqb l x)]; lia.
Qed.

(** On a roster of even length, a project that does not face the bye is a
    side of a pair of the round. *)
Lemma round_gain (roster : list (option string)) (x : string) :
  (length roster mod 2 = 0)%nat -> Some x ∈ roster ->
  ~ Vote.mirrored roster (Some x) None ->
  1 <= Vote.occurrences x (Vote.facing roster).
Proof.
  intros Heven [i Hi]%list_elem_of_lookup Hplays.
  destruct (mirror_exists roster i (Some x) Hi) as [[y|] Hmirror]; [|done].
  destruct (mirrored_facing roster _ _ Heven Hmirror) as [Hin|Hin].
  - apply (occurrences_pos x _ x y Hin). by left.
  - apply (occurrences_pos x _ y x Hin). by right.
Qed.

(** The slots of a long roster after the rotation. *)
Lemma rotated_lookup {A} (first y : A) (l : list A) (i' : nat) (a : A) :
  (first :: y :: l) !! i' = Some a ->
  exists i : nat,
    (first :: l ++ [y]) !! i = Some a
    /\ ((i' = 0 /\ i = 0) \/ (i' = 1 /\ i = S (length l))
        \/ (2 <= i' /\ i = i' - 1))%nat.
Proof.
  destruct i' as [|[|i']]; simpl.
  - intros Ha. exists 0%nat. split; [done | lia].
  - intros [= <-]. exists (S (length l)). split; [|lia].
    simpl. by rewrite list_lookup_middle.
  - intros Ha. exists (S i'). split; [|lia].
    simpl. rewrite lookup_app_l; [done|]. by eapply lookup_lt_Some.
Qed.

(** No project faces the bye in two rounds running. *)
Lemma no_bye_twice (roster : list (option string)) (x : string) :
  NoDup roster -> (4 <= length roster)%nat -> roster !! 0%nat <> Some None ->
  Vote.mirrored roster (Some x) None ->
  ~ Vote.mirrored (Vote.rotate_roster roster) (Some x) None.
Proof.
  intros Hnd Hlen Hhead (i & j & Hij & Hi & Hj) (i' & j' & Hij' & Hi' & Hj').
  destruct (roster_cases roster) as [?|(first & l & y & Hl & ->)]; [lia|].
  rewrite (rotate_roster_long first y l Hl) in Hij', Hi', Hj'.
  simpl in Hij, Hij'. rewrite length_app in Hij. simpl in Hij.
  apply rotated_lookup in Hi' as (i0 & Hi0 & Hcase_i).
  apply rotated_lookup in Hj' as (j0 & Hj0 & Hcase_j).
  pose proof (NoDup_lookup _ _ _ _ Hnd Hi Hi0) as <-.
  pose proof (NoDup_lookup _ _ _ _ Hnd Hj Hj0) as <-.
  assert (j <> 0)%nat by (intros ->; by apply Hhead).
  simpl in Hlen. rewrite length_app in Hlen. simpl in Hlen.
  lia.
Qed.
End Mirror.

Section PairingTotal.
Context {G : Type} `{Vote.Rng G}.
Context (roster0 : list (option string)) (min_appearances : Z).
Hypothesis roster0_nodup : NoDup roster0.
Hypothesis roster0_even : (length roster0 mod 2 = 0)%nat.
Hypothesis roster0_two : (2 <= length roster0)%nat.
Hypothesis roster0_bye : None ∈ roster0 -> (4 <= length roster0)%nat.
Hypothesis roster0_named : exists x, Some x ∈ roster0.

Lemma rounds_total (fuel : nat) :
  forall (k : Z) (roster : list (option string)) (st : Vote.state G),
    roster ≡ₚ roster0 -> roster !! 0%nat <> Some None ->
    Vote.tallied (Vote.names_of roster0) st ->
    (forall x, Some x ∈ roster0 ->
       k <= 2 * Vote.appearances x (Vote.pairs st) + 1
       /\ (Vote.mirrored roster (Some x) None ->
           k <= 2 * Vote.appearances x (Vote.pairs st))) ->
    (min_appearances + 1) * Z.of_nat (length roster0) + 1
    <= Z.of_nat fuel + k ->
    0 <= k ->
    exists pairs,
      Vote.rounds fuel min_appearances
        ((min_appearances + 1) * Z.of_nat (length roster0)) k roster st
      = Vote.Done pairs.
Proof.
  set (max_rounds := (min_appearances + 1) * Z.of_nat (length roster0)).
  induction fuel as [|fuel IH];
    intros k roster st Hperm Hhead Htally Hpace Hfuel Hk.
  - (* the fuel cannot be spent before the scores are reached *)
    simpl. destruct Htally as [Hkeys Hvalues].
    destruct (min_count_spec (Vote.counts st))
      as [[Hempty _]|(least & -> & (x & Hx) & Hmin)].
    { destruct roster0_named as [x Hx]. apply names_of_elem, Hkeys in Hx.
      rewrite Hempty, lookup_empty in Hx. by destruct Hx. }
    simpl. destruct (Z.ltb_spec least min_appearances) as [Hlt|Hge]; [|eauto].
    exfalso. pose proof (Hvalues x least Hx) as Hleast.
    assert (Hin : Some x ∈ roster0)
      by (apply names_of_elem, Hkeys; eauto).
    destruct (Hpace x Hin) as [Hbound _].
    pose proof (appearances_nonneg x (Vote.pairs st)). nia.
  - simpl. destruct Htally as [Hkeys Hvalues].
    destruct (min_count_spec (Vote.counts st))
      as [[Hempty _]|(least & -> & (x & Hx) & Hmin)].
    { destruct roster0_named as [x Hx]. apply names_of_elem, Hkeys in Hx.
      rewrite Hempty, lookup_empty in Hx. by destruct Hx. }
    simpl. destruct (Z.ltb_spec least min_appearances) as [Hlt|Hge]; [|eauto].
    destruct (each_pair_step (Vote.names_of roster0) (Vote.facing roster) st)
      as (st' & -> & Htally' & Hcount & _); [done| |].
    { intros l r [Hl Hr]%facing_members.
      rewrite !names_of_elem, <- Hperm. done. }
    simpl.
    assert (Hround : k + 1 <= max_rounds).
    { pose proof (Hvalues x least Hx) as Hleast.
      assert (Hin : Some x ∈ roster0)
        by (apply names_of_elem, Hkeys; eauto).
      destruct (Hpace x Hin) as [Hbound _].
      pose proof (appearances_nonneg x (Vote.pairs st)).
      unfold max_rounds. nia. }
    destruct (Z.ltb_spec max_rounds (k + 1)) as [?|_]; [lia|].
    assert (Hlen : length roster = length roster0) by by rewrite Hperm.
    apply IH; [by rewrite rotate_roster_perm | by rewrite rotate_roster_head
              | done | | lia | lia].
    intros y Hy. destruct (Hpace y Hy) as [Hbound Hbye].
    rewrite Hcount.
    pose proof (occurrences_nonneg y (Vote.facing roster)) as Hocc.
    assert (Hgain : ~ Vote.mirrored roster (Some y) None ->
                    1 <= Vote.occurrences y (Vote.facing roster)).
    { apply round_gain; [by rewrite Hlen | by rewrite Hperm]. }
    assert (Hdec : Vote.mirrored roster (Some y) None
                   \/ ~ Vote.mirrored roster (Some y) None).
    { destruct (list_elem_of_lookup_1 roster (Some y)) as [i Hi];
        [by rewrite Hperm|].
      destruct (mirror_exists roster i _ Hi) as [[z|] Hm]; [|by left].
      right. intros (i1 & j1 & Hij1 & Hi1 & Hj1).
      destruct Hm as (i2 & j2 & Hij2 & Hi2 & Hj2).
      assert (Hnd : NoDup roster) by by rewrite Hperm.
      pose proof (NoDup_lookup _ _ _ _ Hnd Hi1 Hi2) as ->.
      assert (j1 = j2) as -> by lia. congruence. }
    split.
    + destruct Hdec as [Hsits|Hplays]; [specialize (Hbye Hsits); lia|].
      specialize (Hgain Hplays). lia.
    + intros Hnext.
      destruct Hdec as [Hsits|Hplays]; [|specialize (Hgain Hplays); lia].
      exfalso. revert Hnext. apply no_bye_twice; [by rewrite Hperm| |done|done].
      rewrite Hlen. apply roster0_bye.
      destruct Hsits as (_ & j & _ & _ & Hj). rewrite <- Hperm.
      apply list_elem_of_lookup. eauto.
Qed.
End PairingTotal.

(** X19: for two projects or more, no two of the same name, and with a
    generator whose shuffle rearranges, [generate_pairs] never gives up:
    no project faces the bye in two rounds running, so the counts are
    reached before the cap on the rounds and the pairs are returned. *)
Theorem generate_pairs_total {G : Type} `{Vote.Rng G}
    (projects : list string) (min_appearances seed : Z) :
  Vote.fair_shuffle G -> NoDup projects -> (2 <= length projects)%nat ->
  exists pairs,
    Vote.generate_pairs projects min_appearances seed = Vote.Done pairs.
Proof.
  intros fair Hnd Hlen.
  destruct (generate_pairs_start fair projects min_appearances seed)
    as (roster0 & g & -> & Hmembers & Hnd0 & Heven & Hlen0 & Hbye & Hhead).
  assert (Hne : projects <> []) by (intros ->; simpl in Hlen; lia).
  apply (rounds_total roster0 min_appearances (Hnd0 Hnd) Heven); try done.
  - lia.
  - intros Hnone. specialize (Hbye Hnone).
    pose proof (Nat.div_mod_eq (length roster0) 2). lia.
  - destruct projects as [|x projects]; [done|]. exists x.
    apply Hmembers, list_elem_of_here.
  - by apply Hhead.
  - apply counts_init_tallied.
  - lia.
Qed.

Lemma generate_pairs_total_witness :
  Vote.fair_shuffle Z
  /\ exists pairs,
       Vote.generate_pairs ["a"; "b"; "c"] 10 100 = Vote.Done pairs.
Proof.
  assert (fair : Vote.fair_shuffle Z).
  { intros A g l. simpl. by rewrite reverse_Permutation. }
  split; [exact fair|].
  apply (generate_pairs_total ["a"; "b"; "c"] 10 100 fair).
  - apply (bool_decide_unpack _). vm_compute. reflexivity.
  - simpl. lia.
Defined.

(** ** From the pairing script to the ranking script *)

Section RoundTrip.
Context {Payload Response : Type}.
Context (dumps : Payload -> string).
Context (call_codex : string -> Vote.res Response).
Context (get_winner : Response -> option string).

Lemma evaluate_pair_Done (projects : list (string * Payload))
    (pair : string * string) (evaluated : string * string * string * string) :
  Vote.evaluate_pair dumps call_codex get_winner projects pair
  = Vote.Done evaluated ->
  (evaluated = (pair.1, pair.2, "project_a", pair.1)
   \/ evaluated = (pair.1, pair.2, "project_b", pair.2)).
Proof.
  destruct pair as [name_a name_b]. unfold Vote.evaluate_pair. simpl.
  destruct (Vote.project projects name_a) as [data_a|e]; simpl;
    [|discriminate].
  destruct (Vote.project projects name_b) as [data_b|e]; simpl;
    [|discriminate].
  destruct (call_codex _) as [response|e]; simpl; [|discriminate].
  destruct (get_winner response) as [key|]; [|discriminate].
  destruct (String.eqb_spec key "project_a") as [->|Ha]; simpl.
  - intros [= <-]. by left.
  - destruct (String.eqb_spec key "project_b") as [->|Hb]; [|discriminate].
    intros [= <-]. by right.
Qed.

Lemma chosen_row_loads (name_a name_b : string) :
  load_row (row_of (name_a, name_b, "project_a", name_a))
  = Ok (strip name_a, strip name_b, strip name_a)
  /\ load_row (row_of (name_a, name_b, "project_b", name_b))
     = Ok (strip name_a, strip name_b, strip name_b).
Proof.
  unfold load_row, row_of, get_field. cbn -[strip String.eqb].
  assert (Ha : strip "project_a" = "project_a") by reflexivity.
  assert (Hb : strip "project_b" = "project_b") by reflexivity.
  rewrite Ha, Hb. split.
  - destruct (String.eqb (strip name_a) ""); simpl;
      by rewrite String.eqb_refl.
  - destruct (String.eqb (strip name_b) ""); simpl;
      rewrite String.eqb_refl; by rewrite orb_true_r.
Qed.
End RoundTrip.

Lemma read_rows_all (f : Row -> Outcome) (reader : list Row) :
  Forall (fun row => load_row row = Ok (f row)) reader ->
  forall rows, read_rows reader rows = Ok (rows ++ map f reader)%list.
Proof.
  unfold read_rows. induction 1 as [|row reader Hrow _ IH]; intros rows; simpl.
  - by rewrite app_nil_r.
  - rewrite Hrow. simpl. rewrite IH. by rewrite <- app_assoc.
Qed.

(** X20: the lines that [vote.py] writes are lines that [rank.py] reads.
    When every pair has been evaluated, and there is at least one, ingestion
    accepts the rows read back from the lines written, whatever the names
    of the projects; the outcome of each is the two names and the name of
    the project chosen by the judge, stripped. *)
Theorem evaluated_rows_load {Payload Response : Type}
    (dumps : Payload -> string) (call_codex : string -> Vote.res Response)
    (get_winner : Response -> option string)
    (projects : list (string * Payload))
    (pairs : list (string * string))
    (evaluated : list (string * string * string * string)) :
  Forall2
    (fun pair r =>
       Vote.evaluate_pair dumps call_codex get_winner projects pair
       = Vote.Done r)
    pairs evaluated ->
  pairs <> [] ->
  load_results (map row_of evaluated) = Ok (map read_back evaluated)
  /\ Forall2
       (fun pair o =>
          side_a o = strip pair.1 /\ side_b o = strip pair.2
          /\ (named_winner o = side_a o \/ named_winner o = side_b o))
       pairs (map read_back evaluated).
Proof.
  intros Heval Hne.
  assert (Hrows : Forall2
            (fun pair r =>
               r = (pair.1, pair.2, "project_a", pair.1)
               \/ r = (pair.1, pair.2, "project_b", pair.2))
            pairs evaluated).
  { eapply Forall2_impl; [exact Heval|]. intros pair r.
    apply evaluate_pair_Done. }
  clear Heval. split.
  - assert (Hread : read_rows (map row_of evaluated) []
                    = Ok (map read_back evaluated)).
    { rewrite (read_rows_all (fun row =>
                 (strip (project_a row), strip (project_b row),
                  strip (get_field (winner_name row))))).
      - rewrite app_nil_l, map_map. f_equal. apply map_ext.
        by intros [[[a b] key] wn].
      - apply Forall_fmap.
        eapply Forall2_Forall_r; [exact Hrows|]. apply Forall_forall.
        intros pair _ r [-> | ->]; simpl; apply chosen_row_loads. }
    rewrite load_results_read, Hread.
    destruct Hrows as [|pair r pairs evaluated]; [done | done].
  - rewrite Forall2_fmap_r.
    eapply Forall2_impl; [exact Hrows|].
    intros pair r [-> | ->]; simpl; unfold side_a, side_b, named_winner;
      simpl; tauto.
Qed.

Lemma evaluated_rows_load_witness :
  let projects : list (string * unit) := [("A", tt); (" B", tt)] in
  let call_codex : string -> Vote.res string :=
    fun _ => Vote.Done "project_b" in
  Vote.evaluate_pair (fun _ => "{}") call_codex Some projects ("A", " B")
  = Vote.Done ("A", " B", "project_b", " B")
  /\ load_results (map row_of [("A", " B", "project_b", " B")])
     = Ok [("A", "B", "B")].
Proof.
  intros projects call_codex.
  assert (Hpair : Vote.evaluate_pair (fun _ => "{}") call_codex Some projects
                    ("A", " B")
                  = Vote.Done ("A", " B", "project_b", " B"))
    by reflexivity.
  split; [exact Hpair|].
  destruct (evaluated_rows_load (fun _ => "{}") call_codex Some projects
              [("A", " B")] [("A", " B", "project_b", " B")]) as [Hload _].
  - constructor; [exact Hpair | constructor].
  - discriminate.
  - exact Hload.
Defined.

(** ** From the projects to the pairs *)

(** X21: once [load_projects] has returned, the pairing of [main] cannot
    fail, with a generator whose shuffle rearranges: [generate_pairs], on
    the names in the order of the files and with the default
    [min_appearances], returns; every project appears in ten pairs or more,
    and the two sides of every pair are two different projects that were
    loaded, so that [projects[name]] finds both. *)
Theorem pairing_after_loading {G : Type} `{Vote.Rng G} {Payload : Type}
    (project_name : Payload -> option string) (files : list Payload)
    (projects : list (string * Payload)) (seed : Z) :
  Vote.fair_shuffle G ->
  Vote.load_projects project_name files = Vote.Done projects ->
  exists pairs,
    Vote.generate_pairs (map fst projects) Vote.MIN_APPEARANCES seed
    = Vote.Done pairs
    /\ (forall x, x ∈ map fst projects -> 10 <= Vote.appearances x pairs)
    /\ forall l r,
         (l, r) ∈ pairs ->
         l <> r
         /\ (exists data, Vote.project projects l = Vote.Done data)
         /\ (exists data, Vote.project projects r = Vote.Done data).
Proof.
  intros fair Hload. unfold Vote.load_projects in Hload.
  destruct (Vote.each files _ []) as [loaded|e] eqn:Hloop; simpl in Hload;
    [|discriminate].
  destruct (Nat.ltb_spec (length loaded) 2) as [?|Hlen]; [discriminate|].
  injection Hload as ->.
  apply load_loop_Done in Hloop as (added & -> & _ & _ & Hnd & _).
  simpl in Hlen |- *.
  set (names := map fst added).
  destruct (generate_pairs_start fair names Vote.MIN_APPEARANCES seed)
    as (roster0 & g & Hstart & Hmembers & Hnd0 & Heven & Hlen0 & Hbye & Hhead).
  assert (Hnames : (2 <= length names)%nat)
    by (unfold names; by rewrite length_map).
  assert (Hne : names <> []) by (intros E; rewrite E in Hnames; simpl in *; lia).
  destruct (rounds_total roster0 Vote.MIN_APPEARANCES (Hnd0 Hnd) Heven)
    with (fuel := (Z.to_nat ((Vote.MIN_APPEARANCES + 1)
                             * Z.of_nat (length roster0)) + 1)%nat)
         (k := 0) (roster := roster0)
         (st := {| Vote.pairs := []; Vote.counts := Vote.counts_init roster0;
                   Vote.rng := g |})
    as (pairs & Hrun); try done.
  - lia.
  - intros Hnone. specialize (Hbye Hnone).
    pose proof (Nat.div_mod_eq (length roster0) 2). lia.
  - destruct names as [|x names']; [done|]. exists x.
    apply Hmembers, list_elem_of_here.
  - by apply Hhead.
  - apply counts_init_tallied.
  - lia.
  - exists pairs. rewrite Hstart. split; [exact Hrun|].
    pose proof (rounds_sound roster0 Vote.MIN_APPEARANCES
                  ((Vote.MIN_APPEARANCES + 1) * Z.of_nat (length roster0))
                  (Z.to_nat ((Vote.MIN_APPEARANCES + 1)
                             * Z.of_nat (length roster0)) + 1) 0 roster0 _
                  (reflexivity _) (counts_init_tallied roster0 g)) as Hsound.
    rewrite Hrun in Hsound. destruct Hsound as [Hcount Hpairs]; [|lia|lia|].
    { intros p Hp. by apply elem_of_nil in Hp. }
    split.
    + intros x Hx. by apply Hcount, Hmembers.
    + intros l r Hin. destruct (Hpairs _ Hin) as (Hl & Hr & Hdiff).
      simpl in Hl, Hr, Hdiff. split; [by apply Hdiff, Hnd0|].
      assert (Hfind : forall x, Some x ∈ roster0 ->
                exists data, Vote.project added x = Vote.Done data).
      { intros x Hx. apply Hmembers in Hx. unfold names in Hx.
        apply list_elem_of_fmap in Hx as ([x' data] & -> & Hx).
        unfold Vote.project. cbn [fst].
        destruct (list_find (fun entry => entry.1 = x') added)
          as [[i [y data']]|] eqn:Hfind; [simpl; by eexists|].
        apply list_find_None in Hfind. rewrite Forall_forall in Hfind.
        by destruct (Hfind _ Hx). }
      split; by apply Hfind.
Qed.

Lemma pairing_after_loading_witness :
  let files := [Some "a"; Some "b"; Some "c"] in
  Vote.fair_shuffle Z
  /\ exists projects pairs,
       Vote.load_projects id files = Vote.Done projects
       /\ Vote.generate_pairs (map fst projects) Vote.MIN_APPEARANCES
            Vote.SEED = Vote.Done pairs.
Proof.
  intros files.
  assert (fair : Vote.fair_shuffle Z).
  { intros A g l. simpl. by rewrite reverse_Permutation. }
  split; [exact fair|].
  assert (Hload : Vote.load_projects id files
                  = Vote.Done [("a", Some "a"); ("b", Some "b");
                               ("c", Some "c")]) by reflexivity.
  destruct (pairing_after_loading id files _ Vote.SEED fair Hload)
    as (pairs & Hrun & _).
  eauto.
Defined.

(** ** The order of the outcomes *)

Section BuilderOrder.

Lemma count_outcomes_cons p (o : Outcome) (results : list Outcome) :
  count_outcomes p (o :: results)
  = (if p o then 1 else 0) + count_outcomes p results.
Proof. unfold count_outcomes. simpl. destruct (p o); simpl; lia. Qed.

Lemma count_outcomes_perm p (results results' : list Outcome) :
  results ≡ₚ results' -> count_outcomes p results = count_outcomes p results'.
Proof.
  induction 1 as [|o l l' _ IH|o1 o2 l|l1 l2 l3 _ IH1 _ IH2].
  - done.
  - by rewrite !count_outcomes_cons, IH.
  - rewrite !count_outcomes_cons. lia.
  - by rewrite IH1.
Qed.

Lemma participant_perm (results results' : list Outcome) (x : string) :
  results ≡ₚ results' -> participant results x -> participant results' x.
Proof.
  intros Hperm (o & Hin & Hx). exists o. split; [|done]. by rewrite <- Hperm.
Qed.

(** Two maps kept by the builder for the same counts are the same. *)
Lemma built_unique (results results' : list Outcome) wins wins' records
    records' :
  results ≡ₚ results' ->
  built results wins records -> built results' wins' records' ->
  wins = wins' /\ records = records'.
Proof.
  intros Hperm [Hkeys Hrkeys Hcell Hstored Hrec _]
    [Hkeys' Hrkeys' Hcell' Hstored' Hrec' _].
  assert (Hpart : forall x, participant results x <-> participant results' x).
  { intros x. split; apply participant_perm; [done | by symmetry]. }
  assert (Hcells : forall x y, cell wins x y = cell wins' x y).
  { intros x y. rewrite Hcell, Hcell'. unfold beats.
    by apply count_outcomes_perm. }
  assert (Hrow : forall (w w' : gmap string (gmap string Z)) x row row' y n,
            (forall x y, cell w x y = cell w' x y) ->
            (forall x row y n, w !! x = Some row -> row !! y = Some n ->
                               1 <= n) ->
            w !! x = Some row -> w' !! x = Some row' ->
            row !! y = Some n -> row' !! y = Some n).
  { clear. intros w w' x row row' y n Hcells Hstored Hx Hx' Hy.
    pose proof (Hstored x row y n Hx Hy) as Hn.
    pose proof (Hcells x y) as Hc. unfold cell, getd in Hc.
    rewrite Hx, Hx' in Hc. simpl in Hc. rewrite Hy in Hc. simpl in Hc.
    destruct (row' !! y) as [n'|] eqn:Hy'; simpl in Hc; [congruence | lia]. }
  split.
  - apply map_eq. intros x.
    destruct (wins !! x) as [row|] eqn:Hx, (wins' !! x) as [row'|] eqn:Hx'.
    + f_equal. apply map_eq. intros y.
      destruct (row !! y) as [n|] eqn:Hy.
      * symmetry. by apply (Hrow wins wins' x row row' y n).
      * destruct (row' !! y) as [n'|] eqn:Hy'; [|done].
        rewrite <- Hy.
        apply (Hrow wins' wins x row' row y n');
          first [done | intros; by rewrite Hcells].
    + assert (Hsome : is_Some (wins' !! x)) by (apply Hkeys', Hpart, Hkeys; eauto).
      rewrite Hx' in Hsome. by destruct Hsome.
    + assert (Hsome : is_Some (wins !! x)) by (apply Hkeys, Hpart, Hkeys'; eauto).
      rewrite Hx in Hsome. by destruct Hsome.
    + done.
  - apply map_eq. intros x. specialize (Hrec x). specialize (Hrec' x).
    unfold getd in Hrec, Hrec'.
    assert (Hsame : (won results x, played results x)
                    = (won results' x, played results' x)).
    { unfold won, played. f_equal; [|f_equal]; by apply count_outcomes_perm. }
    destruct (records !! x) as [r|] eqn:Hx, (records' !! x) as [r'|] eqn:Hx';
      simpl in Hrec, Hrec'.
    + congruence.
    + assert (Hsome : is_Some (records' !! x))
        by (apply Hrkeys', Hpart, Hrkeys; eauto).
      rewrite Hx' in Hsome. by destruct Hsome.
    + assert (Hsome : is_Some (records !! x))
        by (apply Hrkeys, Hpart, Hrkeys'; eauto).
      rewrite Hx in Hsome. by destruct Hsome.
    + done.
Qed.
End BuilderOrder.

(** X22: the order of the outcomes does not matter: two lists of outcomes
    that are rearrangements of each other give the same win matrix and the
    same records, hence the same fitted scores, in any arithmetic. *)
Theorem build_win_matrix_order (results results' : list Outcome) :
  results ≡ₚ results' ->
  build_win_matrix results = build_win_matrix results'
  /\ forall {F : Type} `{Arith F} (max_iters : Z) (tol : F),
       bradley_terry (build_win_matrix results).1 max_iters tol
       = bradley_terry (build_win_matrix results').1 max_iters tol.
Proof.
  intros Hperm.
  assert (Hsame : build_win_matrix results = build_win_matrix results').
  { destruct (built_unique results results' _ _ _ _ Hperm
                (build_win_matrix_built results)
                (build_win_matrix_built results')) as [Hwins Hrecords].
    destruct (build_win_matrix results), (build_win_matrix results').
    simpl in *. congruence. }
  split; [exact Hsame|]. intros. by rewrite Hsame.
Qed.

Lemma build_win_matrix_order_witness :
  let results : list Outcome :=
    [("A", "B", "A"); ("A", "B", "B"); ("A", "C", "A")] in
  build_win_matrix results = build_win_matrix (rev results).
Proof.
  intros results.
  apply (build_win_matrix_order results (rev results)).
  apply Permutation_rev.
Defined.

(** * The fitter, pass by pass, in any arithmetic *)

Section DictLoopsRead.
Context {V : Type}.



End DictLoopsRead.

Section Passes.
Context {F : Type} `{Arith F}.
Context (wins : gmap string (gmap string Z)) (players : list string).
Hypothesis players_nodup : NoDup players.






End Passes.






(** The floor does not keep the score of an entity without a win positive
    when the sum of the pass is infinite: on [collapsing_wins], with a cap
    of one pass, the fitter of the code returns [0.0] for C, which has no
    win. *)
Lemma zero_win_collapses :
  total_wins collapsing_wins "C" = 0
  /\ forall how, exists s,
       bradley_terry (H := Binary64.arith how) collapsing_wins 1 Binary64.TOL
       = Ok s
       /\ s !! "C" = Some PrimFloat.zero.
Proof.
  split; [reflexivity|].
  intros []; eexists; (split; [vm_compute; reflexivity | reflexivity]).
Qed.

(** What the counterexample to C3 shows in exact arithmetic, the arithmetic
    of the code shows too: on [lopsided_wins], in the default configuration,
    C, which has no win, is fitted strictly above A, which has one, and
    ranks second of three. *)
Lemma zero_win_above_winner_binary64 :
  forall how, exists s a c,
    bradley_terry (H := Binary64.arith how)
      lopsided_wins MAX_ITERS Binary64.TOL = Ok s
    /\ s !! "A" = Some a /\ s !! "C" = Some c
    /\ PrimFloat.ltb a c = true
    /\ map fst (rank_scores (H := Binary64.arith how)
                  (entries (sorted_keys lopsided_wins) s))
       = ["B"; "C"; "A"].
Proof.
  intros how.
  assert (Hrun :
    match bradley_terry (H := Binary64.arith how)
            lopsided_wins MAX_ITERS Binary64.TOL with
    | Ok s =>
        match s !! "A", s !! "C" with
        | Some a, Some c =>
            PrimFloat.ltb a c = true
            /\ map fst (rank_scores (H := Binary64.arith how)
                          (entries (sorted_keys lopsided_wins) s))
               = ["B"; "C"; "A"]
        | _, _ => False
        end
    | Raise _ => False
    end) by (destruct how; vm_compute; split; reflexivity).
  destruct (bradley_terry (H := Binary64.arith how)
              lopsided_wins MAX_ITERS Binary64.TOL) as [s|e] eqn:Hfit;
    [|destruct Hrun].
  destruct (s !! "A") as [a|] eqn:Ha; [|destruct Hrun].
  destruct (s !! "C") as [c|] eqn:Hc; [|destruct Hrun].
  destruct Hrun as [Hlt Hrank]. exists s, a, c.
  split; [reflexivity|]. split; [exact Ha|]. split; [exact Hc|].
  split; [exact Hlt | exact Hrank].
Qed.



(** What the counterexample to C9 shows in exact arithmetic, the arithmetic
    of the code shows too: on [seesaw_wins], with the tolerance 0.014, the
    fitter returns a vector [s], and the run re-seeded with [s] returns a
    vector whose entry for D is more than the tolerance away from that of
    [s]. *)
Lemma reseeded_run_drifts_binary64 :
  forall how, exists s s' d d',
    bradley_terry (H := Binary64.arith how)
      seesaw_wins MAX_ITERS Binary64.tol_0_014 = Ok s
    /\ bradley_terry_seeded (H := Binary64.arith how)
         seesaw_wins MAX_ITERS Binary64.tol_0_014 s = Ok s'
    /\ s !! "D" = Some d /\ s' !! "D" = Some d'
    /\ PrimFloat.ltb Binary64.tol_0_014 (PrimFloat.abs (PrimFloat.sub d' d))
       = true.
Proof.
  intros how.
  assert (Hrun :
    match bradley_terry (H := Binary64.arith how)
            seesaw_wins MAX_ITERS Binary64.tol_0_014 with
    | Ok s =>
        match bradley_terry_seeded (H := Binary64.arith how)
                seesaw_wins MAX_ITERS Binary64.tol_0_014 s with
        | Ok s' =>
            match s !! "D", s' !! "D" with
            | Some d, Some d' =>
                PrimFloat.ltb Binary64.tol_0_014
                  (PrimFloat.abs (PrimFloat.sub d' d)) = true
            | _, _ => False
            end
        | Raise _ => False
        end
    | Raise _ => False
    end) by (destruct how; vm_compute; reflexivity).
  destruct (bradley_terry (H := Binary64.arith how)
              seesaw_wins MAX_ITERS Binary64.tol_0_014) as [s|e] eqn:Hfit;
    [|destruct Hrun].
  destruct (bradley_terry_seeded (H := Binary64.arith how)
              seesaw_wins MAX_ITERS Binary64.tol_0_014 s) as [s'|e] eqn:Hseed;
    [|destruct Hrun].
  destruct (s !! "D") as [d|] eqn:Hd; [|destruct Hrun].
  destruct (s' !! "D") as [d'|] eqn:Hd'; [|destruct Hrun].
  exists s, s', d, d'.
  split; [reflexivity|]. split; [exact Hseed|]. split; [exact Hd|].
  split; [exact Hd' | exact Hrun].
Qed.

(** * The allocator, entry by entry, in any arithmetic *)

Section AllocatorEntries.
Context {F : Type} `{Arith F} `{Pow F}.
Context (ws : list F) (scale : F) (max_fil min_fil : Z).

(** What the [enumerate] loop has stored for the entry at each position,
    no name coming twice. *)
Lemma alloc_loop_inv (consider : list (string * F)) :
  forall (start : nat) (m0 m : gmap string Z),
    NoDup (map fst consider) -> (1 <= start)%nat ->
    for_each (zip (seq start (length consider)) consider)
      (alloc_step ws scale max_fil min_fil) m0 = Ok m ->
    (forall (i : nat) name score,
       consider !! i = Some (name, score) ->
       exists w alloc,
         ws !! (start - 1 + i)%nat = Some w
         /\ fround (fmul scale w) = inr alloc
         /\ m !! name = Some (clamp max_fil min_fil alloc))
    /\ forall name, name ∉ map fst consider -> m !! name = m0 !! name.
Proof.
  induction consider as [|[x sc] consider IH];
    intros start m0 m Hnd Hstart Hrun.
  - simpl in Hrun. injection Hrun as <-. split; [by intros i x sc Hi | done].
  - change (map fst ((x, sc) :: consider)) with (x :: map fst consider) in *.
    apply NoDup_cons in Hnd as [Hx Hnd].
    cbn [length seq zip zip_with for_each alloc_step] in Hrun.
    destruct (ws !! (start - 1)%nat) as [w|] eqn:Hw;
      cbn [mbind result_bind] in Hrun; [|discriminate].
    destruct (fround (fmul scale w)) as [e|alloc] eqn:Halloc;
      cbn [lift mbind result_bind] in Hrun; [discriminate|].
    destruct (IH (S start) _ m Hnd ltac:(lia) Hrun) as [Hin Hout]. split.
    + intros [|i] name score Hi.
      * injection Hi as <- <-. exists w, alloc.
        replace (start - 1 + 0)%nat with (start - 1)%nat by lia.
        split; [done|]. split; [done|].
        rewrite (Hout x Hx). apply lookup_insert_eq.
      * destruct (Hin i name score Hi) as (w' & alloc' & Hw' & Ha' & Hm).
        exists w', alloc'.
        replace (start - 1 + S i)%nat with (S start - 1 + i)%nat by lia.
        done.
    + intros name Hname. apply not_elem_of_cons in Hname as [Hne Hname].
      rewrite (Hout name Hname). by apply lookup_insert_ne.
Qed.
End AllocatorEntries.

(** C5, as the code has it: when the allocator returns on a ranked list
    without repeated names, an entity of the window [ranked[:top_n]] whose
    own rounded raw allocation [int(round(scale * weights[idx - 1]))] is
    below [min_fil] gets exactly 0, and otherwise it gets that rounded
    allocation capped at [max_fil]; an entity beyond the window gets 0.
    Hence every allocation is 0 or at most [max_fil], and 0 or inside
    [[min_fil, max_fil]] in a configuration with [min_fil <= max_fil].
    This holds in any arithmetic. *)
Theorem allocation_zero_or_clamped {F : Type} `{Arith F} `{Pow F}
    (ranked : list (string * F)) (alpha : F)
    (top_n max_fil min_fil budget_fil : Z) (m : gmap string Z) :
  NoDup (map fst ranked) ->
  powerlaw_allocations ranked alpha top_n max_fil min_fil budget_fil = Ok m ->
  exists ws b scale,
    weights alpha (length (slice_to top_n ranked)) = Ok ws
    /\ of_int budget_fil = inr b
    /\ fdiv b (if feqb (fsum ws) f0 then f1 else fsum ws) = inr scale
    /\ (forall (i : nat) name score,
          slice_to top_n ranked !! i = Some (name, score) ->
          exists w alloc,
            ws !! i = Some w
            /\ fround (fmul scale w) = inr alloc
            /\ m !! name
               = Some (if alloc <? min_fil then 0 else Z.min max_fil alloc))
    /\ (forall name,
          name ∈ map fst (slice_from top_n ranked) -> m !! name = Some 0)
    /\ forall name v,
         m !! name = Some v ->
         (v = 0 \/ v <= max_fil)
         /\ (min_fil <= max_fil -> v = 0 \/ min_fil <= v <= max_fil).
Proof.
  intros Hnd Hrun. unfold powerlaw_allocations in Hrun.
  destruct (weights alpha (length (slice_to top_n ranked))) as [ws|e] eqn:Hws;
    cbn [mbind result_bind] in Hrun; [|discriminate].
  destruct (of_int budget_fil) as [e|b] eqn:Hb;
    cbn [lift mbind result_bind] in Hrun; [discriminate|].
  destruct (fdiv b _) as [e|scale] eqn:Hscale;
    cbn [lift mbind result_bind] in Hrun; [discriminate|].
  destruct (for_each _ _ _) as [looped|e] eqn:Hloop;
    cbn [mbind result_bind] in Hrun; [|discriminate].
  injection Hrun as <-.
  assert (Hsplit : map fst ranked
                   = (map fst (slice_to top_n ranked)
                      ++ map fst (slice_from top_n ranked))%list)
    by (unfold slice_to, slice_from; by rewrite <- map_app, take_drop).
  rewrite Hsplit in Hnd. apply NoDup_app in Hnd as (Hnd & Hdisj & _).
  destruct (alloc_loop_inv ws scale max_fil min_fil (slice_to top_n ranked)
              1 ∅ looped Hnd ltac:(lia) Hloop) as [Hin _].
  exists ws, b, scale. split; [done|]. split; [done|]. split; [done|].
  split; [|split].
  - intros i name score Hi.
    destruct (Hin i name score Hi) as (w & alloc & Hw & Halloc & Hm).
    exists w, alloc. split; [exact Hw|]. split; [exact Halloc|].
    rewrite zero_fill_lookup. rewrite decide_False; [exact Hm|].
    apply Hdisj. apply (list_elem_of_fmap_2 fst _ (name, score)).
    by apply list_elem_of_lookup_2 with i.
  - intros name Hname. rewrite zero_fill_lookup. by rewrite decide_True.
  - intros name v Hv. rewrite zero_fill_lookup in Hv.
    destruct (decide _) as [_|_];
      [injection Hv as <-; split; [by left | intros _; by left]|].
    destruct (alloc_loop_values _ _ _ _ _ _ _ Hloop name v Hv)
      as [Hempty|[alloc ->]]; [by rewrite lookup_empty in Hempty|].
    unfold clamp. destruct (Z.ltb_spec alloc min_fil).
    + split; [by left | intros _; by left].
    + split; [right; lia | intros Hcfg; right; lia].
Qed.

Lemma allocation_zero_or_clamped_witness :
  let ranked := [("a", 3 # 4); ("b", 1 # 4); ("c", 1 # 8)]%Q in
  NoDup (map fst ranked)
  /\ exists m,
       powerlaw_allocations ranked 1%Q 2 100000 500 510000 = Ok m
       /\ (exists alloc,
             m !! "b" = Some (if alloc <? 500 then 0 else Z.min 100000 alloc))
       /\ m !! "c" = Some 0.
Proof.
  intros ranked.
  assert (Hnd : NoDup (map fst ranked))
    by (apply (bool_decide_unpack _); vm_compute; reflexivity).
  split; [exact Hnd|].
  destruct (powerlaw_allocations ranked 1%Q 2 100000 500 510000)
    as [m|e] eqn:Hrun.
  - exists m. split; [reflexivity|].
    destruct (allocation_zero_or_clamped ranked 1%Q 2 100000 500 510000 m
                Hnd Hrun) as (ws & b & scale & _ & _ & _ & Hin & Hout & _).
    split.
    + destruct (Hin 1%nat "b" (1 # 4)%Q) as (w & alloc & _ & _ & Hm);
        [reflexivity|]. eauto.
    + apply Hout. apply (bool_decide_unpack _). vm_compute. reflexivity.
  - exfalso. revert Hrun. vm_compute. discriminate.
Defined.

(** C5 fails as stated, for a configuration in which [max_fil] is below
    [min_fil]: nothing in the allocator compares the two bounds.  One ranked
    entity, [max_fil = 100], [min_fil = 500] and the default budget: the
    rounded raw allocation is 510000, which is not below [min_fil], and the
    entity gets [min(100, 510000) = 100], which is neither 0 nor at least
    [min_fil].  So it is in the arithmetic of the code with the default
    exponent, whatever else the power function does, given that
    [1 ** alpha] is [1.0]; and in exact arithmetic, on which every
    operation of this run agrees with the floats. *)
Lemma clamp_below_minimum :
  (forall (pw : Pow PrimFloat.float) how,
     pw 1 Binary64.POWER_LAW_ALPHA = inr PrimFloat.one ->
     powerlaw_allocations (H := Binary64.arith how) (H0 := pw)
       [("a", PrimFloat.one)] Binary64.POWER_LAW_ALPHA
       POWER_LAW_TOP_N 100 500 BUDGET_FIL
     = Ok {[ "a" := 100 ]})
  /\ powerlaw_allocations [("a", 1%Q)] 1%Q POWER_LAW_TOP_N 100 500 BUDGET_FIL
     = Ok {[ "a" := 100 ]}
  /\ 100 <> 0 /\ 100 < 500.
Proof.
  split; [|split; [vm_compute; reflexivity | lia]].
  intros pw how Hpw. unfold powerlaw_allocations.
  change (slice_to POWER_LAW_TOP_N [("a", PrimFloat.one)])
    with [("a", PrimFloat.one)].
  cbn [length weights seq for_each mbind result_bind].
  unfold weight, fpow. change (Z.of_nat 1) with 1. rewrite Hpw.
  destruct how; vm_compute; reflexivity.
Qed.

(** * Ingestion on the rows of the reader *)

Section ReaderRows.

(** On a row all of whose cells are texts the loader on the rows of the
    reader is [load_row]. *)
Lemma load_row_of_texts (row : Row) :
  DictReader.load_row (of_texts row) = load_row row.
Proof.
  unfold DictReader.load_row, load_row, of_texts, get_field. simpl.
  destruct (winner row), (winner_name row); reflexivity.
Qed.

Lemma load_results_of_texts (reader : list Row) :
  DictReader.load_results (map of_texts reader) = load_results reader.
Proof.
  unfold DictReader.load_results, load_results.
  assert (Hloop : forall rows,
    for_each (map of_texts reader)
      (fun rows row => o ← DictReader.load_row row; Ok (rows ++ [o])%list)
      rows
    = for_each reader
        (fun rows row => o ← load_row row; Ok (rows ++ [o])%list) rows).
  { induction reader as [|row reader IH]; intros rows; [done|].
    cbn [map for_each]. rewrite load_row_of_texts.
    destruct (load_row row); [apply IH | done]. }
  by rewrite Hloop.
Qed.

(** A row whose [winner] cell is [None] stops the loader with the
    [AttributeError] of [None.strip()], whatever its other cells and
    whatever rows follow, once the rows before it are loaded. *)
Lemma none_winner_raises (before after : list DictReader.Row)
    (row : DictReader.Row) (a b : string) :
  (forall r, r ∈ before -> exists o, DictReader.load_row r = Ok o) ->
  DictReader.cell_project_a row = Some (DictReader.Text a) ->
  DictReader.cell_project_b row = Some (DictReader.Text b) ->
  DictReader.cell_winner row = Some DictReader.NoneCell ->
  DictReader.load_results (before ++ row :: after)%list
  = Raise AttributeError.
Proof.
  intros Hbefore Ha Hb Hw. unfold DictReader.load_results.
  assert (Hrow : DictReader.load_row row = Raise AttributeError)
    by (unfold DictReader.load_row; by rewrite Ha, Hb, Hw).
  assert (Hloop : forall rows,
    for_each (before ++ row :: after)%list
      (fun rows row => o ← DictReader.load_row row; Ok (rows ++ [o])%list)
      rows = Raise AttributeError).
  { induction before as [|r before IH]; intros rows.
    - cbn [app for_each]. by rewrite Hrow.
    - cbn [app for_each].
      destruct (Hbefore r) as [o ->]; [by left|]. cbn [mbind result_bind].
      apply IH. intros r' Hr'. apply Hbefore. by right. }
  by rewrite Hloop.
Qed.
End ReaderRows.

(** C8 at the failing input: the line [A,B] under the header
    [project_a,project_b,winner,winner_name] has no winner indicator, and
    [load_results] does not fail with a [MalformedRecord] error on it, nor
    with an [EmptyInput] error: [row.get("winner", "")] finds the cell
    [None], and [None.strip()] raises [AttributeError].  The same line under
    a header without the columns [winner] and [winner_name], and the line
    [A,B,,], which has the indicator empty, do raise the [MalformedRecord]
    error. *)
Theorem short_row_attribute_error :
  DictReader.load_results [short_row] = Raise AttributeError
  /\ ~ MalformedRecord AttributeError
  /\ ~ EmptyInput AttributeError
  /\ DictReader.load_results
       [ {| DictReader.cell_project_a := Some (DictReader.Text "A");
            DictReader.cell_project_b := Some (DictReader.Text "B");
            DictReader.cell_winner := None;
            DictReader.cell_winner_name := None |} ]
     = Raise UnrecognizedWinner
  /\ DictReader.load_results
       [ {| DictReader.cell_project_a := Some (DictReader.Text "A");
            DictReader.cell_project_b := Some (DictReader.Text "B");
            DictReader.cell_winner := Some (DictReader.Text "");
            DictReader.cell_winner_name := Some (DictReader.Text "") |} ]
     = Raise UnrecognizedWinner
  /\ MalformedRecord UnrecognizedWinner.
Proof.
  split; [reflexivity|]. split; [by intros [?|?]|]. split; [done|].
  split; [reflexivity|]. split; [reflexivity | by left].
Qed.

(** * The allocator on an empty window *)

(** X6: with an empty window ([top_n = 0]) no weight is computed and the sum
    of no weight, which is falsy, is replaced by [1.0].  In an arithmetic in
    which the empty sum is zero and a division by [1.0] never raises, as in
    the arithmetic of the code, the allocator then fails only when the
    budget is too large an [int] for a float, and otherwise returns the
    allocation 0 for every entity of the ranked list: it does not divide by
    zero, whatever the power function. *)
Theorem allocation_empty_window {F : Type} `{Arith F} `{Pow F}
    (ranked : list (string * F)) (alpha : F)
    (max_fil min_fil budget_fil : Z) :
  feqb (fsum []) f0 = true ->
  (forall b, exists scale, fdiv b f1 = inr scale) ->
  (forall e,
     of_int budget_fil = inl e ->
     powerlaw_allocations ranked alpha 0 max_fil min_fil budget_fil
     = Raise (ArithError e))
  /\ forall b,
       of_int budget_fil = inr b ->
       exists m,
         powerlaw_allocations ranked alpha 0 max_fil min_fil budget_fil = Ok m
         /\ forall name,
              m !! name
              = if decide (name ∈ map fst ranked) then Some 0 else None.
Proof.
  intros Hempty Hone. unfold powerlaw_allocations.
  change (slice_to 0 ranked) with (@nil (string * F)).
  change (slice_from 0 ranked) with ranked.
  cbn [length weights seq for_each mbind result_bind]. rewrite Hempty.
  split.
  - intros e ->. reflexivity.
  - intros b ->. cbn [lift mbind result_bind].
    destruct (Hone b) as [scale ->].
    cbn [lift mbind result_bind zip zip_with for_each].
    eexists. split; [reflexivity|]. intros name.
    by rewrite zero_fill_lookup, lookup_empty.
Qed.

Lemma allocation_empty_window_witness :
  let ranked := [("a", PrimFloat.one); ("b", PrimFloat.zero)] in
  let b64 := Binary64.arith Binary64.Compensated in
  feqb (Arith := b64) (fsum []) f0 = true
  /\ (forall pw : Pow PrimFloat.float,
        powerlaw_allocations (H := b64) (H0 := pw)
          ranked Binary64.TOL 0 MAX_FIL_PER_APP MIN_FIL_PER_VOTE BUDGET_FIL
        = Ok {[ "a" := 0; "b" := 0 ]})
  /\ forall pw : Pow PrimFloat.float,
       powerlaw_allocations (H := b64) (H0 := pw)
         ranked Binary64.TOL 0 MAX_FIL_PER_APP MIN_FIL_PER_VOTE (10 ^ 400)
       = Raise (ArithError OverflowError).
Proof.
  intros ranked b64.
  assert (Hempty : feqb (Arith := b64) (fsum []) f0 = true) by reflexivity.
  assert (Hone : forall b, exists scale, fdiv (Arith := b64) b f1 = inr scale)
    by (intros b; eexists; reflexivity).
  split; [exact Hempty|]. split; intros pw.
  - destruct (allocation_empty_window (H := b64) (H0 := pw)
                ranked Binary64.TOL MAX_FIL_PER_APP MIN_FIL_PER_VOTE
                BUDGET_FIL Hempty Hone) as [_ Hreturns].
    destruct (Hreturns (Binary64.of_Z BUDGET_FIL))
      as (m & -> & Hm); [vm_compute; reflexivity|].
    f_equal. apply map_eq. intros name. rewrite Hm.
    destruct (decide (name = "a")) as [->|Ha]; [reflexivity|].
    destruct (decide (name = "b")) as [->|Hb]; [reflexivity|].
    rewrite decide_False.
    + rewrite lookup_insert_ne by done. symmetry.
      by apply lookup_singleton_ne.
    + simpl. rewrite !elem_of_cons, elem_of_nil. intuition congruence.
  - apply (allocation_empty_window (H := b64) (H0 := pw)
             ranked Binary64.TOL MAX_FIL_PER_APP MIN_FIL_PER_VOTE (10 ^ 400)
             Hempty Hone).
    vm_compute. reflexivity.
Defined.

(** * The float literals *)

(** The literals of the binary64 instance are the floats nearest to
    [1e-12], to [1e-10] and to [0.8]: each is [n / d] with [n] of 53 bits
    and within half a unit in the last place of the decimal value. *)
Lemma binary64_literals :
  (exists n,
     Binary64.to_fraction Binary64.floor_1e_12 = Some (n, 2 ^ 92)
     /\ 2 ^ 52 <= n < 2 ^ 53
     /\ Z.abs (2 * n * 10 ^ 12 - 2 ^ 93) <= 10 ^ 12)
  /\ (exists n,
        Binary64.to_fraction Binary64.TOL = Some (n, 2 ^ 86)
        /\ 2 ^ 52 <= n < 2 ^ 53
        /\ Z.abs (2 * n * 10 ^ 10 - 2 ^ 87) <= 10 ^ 10)
  /\ exists n,
       Binary64.to_fraction Binary64.POWER_LAW_ALPHA = Some (n, 2 ^ 53)
       /\ 2 ^ 52 <= n < 2 ^ 53
       /\ Z.abs (2 * n * 10 - 8 * 2 ^ 54) <= 10.
Proof.
  split; [|split]; eexists; (split; [vm_compute; reflexivity|]);
    (split; [lia | vm_compute; discriminate]).
Qed.
